(** * The memcached file logger (extensions/loggers/file_logger.c)

    A shallow embedding of the double-buffered file logger: the producer
    side ([add_log_entry], [logger_log]), the flusher thread's drain and
    rotation cycle ([flush_pending_io], [open_logfile], [reopen_logfile],
    [logger_thead_main] with its cycle [drain_cycle], [exit_handler]) and
    the start-up code ([memcached_extensions_initialize],
    [on_log_level]).

    Conventions.
    - [size_t] values are [Z] reduced modulo [2^64]; [unsigned int] values
      are reduced modulo [2^32]; an [int] obtained from a wider value is
      its two's-complement reading ([to_int]).
    - Raw memory (a log buffer, the contents of a file) is a [list byte];
      NUL-terminated C strings (file names, messages, diagnostics) are
      [string]s.
    - The static variables of the file are the fields of [globals]; the
      disk, [stderr] and the calls made to the storage backend are the
      fields of [world].
    - What the operating system decides (how many bytes a write accepts,
      whether an open succeeds, whether the clock can be read) is passed
      in as an argument.
    - The comparisons with [buffersz * 0.75] are made in [double]: IEEE
      754 binary64, rounded to nearest.
    - Undefined behaviour (a write past the end of [buffer] or [fname],
      a stream operation on [NULL]) is a result of its own, [Fault] or
      [Undefined]. *)

From Stdlib Require Import ZArith Lia List Sorting.Sorted.
From Stdlib Require Import Strings.Ascii Strings.String Strings.Byte.
From stdpp Require Import base numbers list strings gmap pretty.

Local Open Scope Z_scope.

(** ** Machine integers *)

Definition wrap_size (z : Z) : Z := z mod 2 ^ 64.
Definition wrap_uint (z : Z) : Z := z mod 2 ^ 32.
Definition INT_MAX : Z := 2 ^ 31 - 1.

(** The value of [(int) z]: the low 32 bits, read as a signed number. *)
Definition to_int (z : Z) : Z :=
  let u := wrap_uint z in if u <? 2 ^ 31 then u else u - 2 ^ 32.

(** ** Text *)

Definition newline : ascii := ascii_of_nat 10.
Definition nl : string := String newline EmptyString.

Definition bytes_of (s : string) : list byte := list_byte_of_string s.

(** ** The log buffers

    [struct logbuffer]: [data] is the [malloc]ed segment, [offset] the
    number of bytes of it in use. *)
Record logbuffer := Logbuffer {
  data : list byte;
  offset : Z
}.

(** The static variables of file_logger.c. [buffers0] and [buffers1] are
    [buffers[0]] and [buffers[1]]; [next_id] is the static local of
    [open_logfile]. *)
Record globals := Globals {
  current_log_level : Z;
  output_level : Z;
  cyclesz : Z;
  buffers0 : logbuffer;
  buffers1 : logbuffer;
  currbuffer : Z;
  prettyprint : bool;
  compress_files : bool;
  buffersz : Z;
  sleeptime : Z;
  extension : string;
  next_id : Z;
  run : Z
}.

Definition buffers (g : globals) (i : Z) : logbuffer :=
  if i =? 0 then buffers0 g else buffers1 g.

Definition set_buffer (g : globals) (i : Z) (lb : logbuffer) : globals :=
  Globals (current_log_level g) (output_level g) (cyclesz g)
    (if i =? 0 then lb else buffers0 g)
    (if i =? 0 then buffers1 g else lb)
    (currbuffer g) (prettyprint g) (compress_files g) (buffersz g)
    (sleeptime g) (extension g) (next_id g) (run g).

Definition set_currbuffer (g : globals) (i : Z) : globals :=
  Globals (current_log_level g) (output_level g) (cyclesz g)
    (buffers0 g) (buffers1 g) i (prettyprint g) (compress_files g)
    (buffersz g) (sleeptime g) (extension g) (next_id g) (run g).

Definition set_next_id (g : globals) (n : Z) : globals :=
  Globals (current_log_level g) (output_level g) (cyclesz g)
    (buffers0 g) (buffers1 g) (currbuffer g) (prettyprint g)
    (compress_files g) (buffersz g) (sleeptime g) (extension g) n (run g).

Definition set_current_log_level (g : globals) (l : Z) : globals :=
  Globals l (output_level g) (cyclesz g)
    (buffers0 g) (buffers1 g) (currbuffer g) (prettyprint g)
    (compress_files g) (buffersz g) (sleeptime g) (extension g)
    (next_id g) (run g).

(** ** The world outside the process *)

(** What is sent to [stderr]: [fprintf] is used for the logger's own
    diagnostics, [fputs] followed by [fflush] for mirrored records. *)
Inductive stderr_op :=
| Fprintf (s : string)
| Fputs (s : string)
| Fflush.

(** A [HANDLE]: [None] is [NULL], [Some path] a stream open on [path]. *)
Definition HANDLE := option string.

(** Calls made through [iops]. *)
Inductive io_event :=
| IoOpen (path : string) (ok : bool)
| IoClose (path : string)
| IoWrite (path : string) (bs : list byte)
| IoFlush (path : string).

Record world := World {
  disk : gmap string (list byte);
  stderr : list stderr_op;
  iolog : list io_event
}.

Definition to_stderr (w : world) (ops : list stderr_op) : world :=
  World (disk w) (stderr w ++ ops) (iolog w).

Definition file_contents (w : world) (path : string) : list byte :=
  default [] (disk w !! path).

(** ** add_log_entry *)

(** [memcpy(data + off, src, n)] *)
Definition memcpy_at (dst : list byte) (off : Z) (src : list byte) (n : Z)
  : list byte :=
  take (Z.to_nat off) dst ++ take (Z.to_nat n) src
    ++ drop (Z.to_nat (off + n)) dst.

Definition space_warning : string :=
  "WARNING: waiting for log space to be available"%string +:+ nl.

(** The guard of the [while] loop: true when the caller has to wait on
    [space_cond]. *)
Definition must_wait (g : globals) (size : Z) : bool :=
  buffersz g <=? wrap_size (offset (buffers g (currbuffer g)) + size).

(** The arithmetic of [double] on the values the test below meets: IEEE
    754 binary64, rounding to nearest with ties to even, each operation
    rounded to [double] (C's [FLT_EVAL_METHOD] 0, as on x86-64). A finite
    non-negative [double] is a pair [(m, e)] that stands for [m * 2^e].

    [round53 m e] is the [double] nearest to [m * 2^e]: up to 53 bits of
    [m] are kept. *)
Definition round53 (m e : Z) : Z * Z :=
  if m <? 2 ^ 53 then (m, e)
  else
    let s := Z.log2 m - 52 in
    let q := Z.shiftr m s in
    let r := m mod 2 ^ s in
    let half := 2 ^ (s - 1) in
    let q' := if (half <? r) || ((r =? half) && Z.odd q) then q + 1 else q in
    (q', e + s).

(** The conversion of a [size_t] to [double]. *)
Definition double_of_size (n : Z) : Z * Z := round53 n 0.

(** [x * 0.75]: the constant is [3 * 2^-2], the product is rounded. *)
Definition times_three_quarters (x : Z * Z) : Z * Z :=
  round53 (3 * x.1) (x.2 - 2).

(** [x < y] on [double]s. *)
Definition double_lt (x y : Z * Z) : bool :=
  let e := Z.min x.2 y.2 in
  x.1 * 2 ^ (x.2 - e) <? y.1 * 2 ^ (y.2 - e).

(** [off > buffersz * 0.75], with [off] and [buffersz] of type [size_t]:
    both are converted to [double] and the product is rounded, so for
    sizes of [2^53] and more the test is not the one on integers. *)
Definition over_high_water (g : globals) (off : Z) : bool :=
  double_lt (times_three_quarters (double_of_size (buffersz g)))
    (double_of_size off).

(** The code after the loop: copy, advance the offset, decide whether to
    signal [cond]. *)
Definition append_record (g : globals) (msg : list byte) (size : Z)
  : globals * bool :=
  let lb := buffers g (currbuffer g) in
  let off := wrap_size (offset lb + size) in
  (set_buffer g (currbuffer g)
     (Logbuffer (memcpy_at (data lb) (offset lb) msg size) off),
   over_high_water g off).

(** How a call made by a producer thread ends: it returns, it is still
    asleep on [space_cond] when the wake-ups run out, or it runs into
    undefined behaviour. *)
Inductive call_result :=
| Returned (g : globals) (w : world)
| Blocked (w : world)
| Undefined.

(** [add_log_entry] under the mutex. Each time the caller has to wait it
    prints the warning and sleeps on [space_cond]; when it wakes up the
    statics are what the other threads left, the next element of
    [wakeups]. *)
Fixpoint add_log_entry (wakeups : list globals) (g : globals) (w : world)
    (msg : list byte) (size : Z) : call_result :=
  if must_wait g size then
    let w' := to_stderr w [Fprintf space_warning] in
    match wakeups with
    | [] => Blocked w'
    | g' :: later => add_log_entry later g' w' msg size
    end
  else Returned (append_record g msg size).1 w.

(** The number of times the caller goes to sleep. *)
Fixpoint waits (wakeups : list globals) (g : globals) (size : Z) : nat :=
  if must_wait g size then
    match wakeups with
    | [] => 1%nat
    | g' :: later => S (waits later g' size)
    end
  else 0%nat.

(** ** The storage backend (the [stdio] operations behind [iops])

    A file is its byte contents. The stream is unbuffered
    ([setbuf(ret, NULL)]), so a write that accepts [r] bytes puts them on
    disk at once, and flush and close leave the contents alone. With the
    zlib backend the contents are the uncompressed stream. *)

(** Three ways a call can end: it returns, it is still inside a loop when
    the environment's answers run out, or it runs into undefined
    behaviour (a stream operation on a [NULL] handle). *)
Inductive outcome (A : Type) :=
| Done (a : A)
| Spinning
| Fault.
Arguments Done {A} a.
Arguments Spinning {A}.
Arguments Fault {A}.

Definition bind_outcome {A B : Type} (o : outcome A) (f : A → outcome B)
  : outcome B :=
  match o with
  | Done a => f a
  | Spinning => Spinning
  | Fault => Fault
  end.

Notation "'let*' p := o 'in' k" := (bind_outcome o (λ p, k))
  (at level 10, p pattern, o at level 100, k at level 200,
   only parsing).

Definition log_io (w : world) (e : io_event) : world :=
  World (disk w) (stderr w) (iolog w ++ [e]).

(** [iops.write(handle, ptr, nbytes)] when the backend answers [r]: a
    positive [r] is the number of bytes of [ptr] that went to the file. *)
Definition iops_write (w : world) (path : string) (ptr : list byte)
    (nbytes r : Z) : world :=
  if 0 <? r then
    World (<[path := file_contents w path
                       ++ take (Z.to_nat r) (take (Z.to_nat nbytes) ptr)]>
             (disk w))
          (stderr w) (iolog w)
  else w.

(** The [while (towrite > 0)] loop. [rs] holds the values the backend
    returns to the successive calls of [iops.write]; the result is stored
    in an [int]. A result that is not positive changes nothing and the
    same request is issued again. *)
Fixpoint write_loop (rs : list Z) (path : string) (w : world)
    (ptr : list byte) (towrite : Z) : option (world * list Z) :=
  if 0 <? towrite then
    match rs with
    | [] => None
    | r :: rs' =>
        let w' := iops_write w path ptr towrite r in
        let nw := to_int r in
        if 0 <? nw then
          write_loop rs' path w' (drop (Z.to_nat nw) ptr)
            (wrap_size (towrite - nw))
        else write_loop rs' path w' ptr towrite
    end
  else Some (w, rs).

(** [flush_pending_io]: returns the byte count, the buffer, the world and
    the backend answers that were not consumed. *)
Definition flush_pending_io (rs : list Z) (file : HANDLE) (w : world)
    (lb : logbuffer) : outcome (Z * logbuffer * world * list Z) :=
  if 0 <? offset lb then
    match file with
    | None => Fault
    | Some path =>
        match write_loop rs path w (data lb) (offset lb) with
        | None => Spinning
        | Some (w', rs') =>
            Done (offset lb, Logbuffer (data lb) 0,
                  log_io w' (IoFlush path), rs')
        end
    end
  else Done (0, lb, w, rs).

(** ** Opening and rotating log files *)

(** [sprintf(fname, "%s.%d.%s", fnm, next_id, extension)]; [next_id] is
    an [unsigned int] printed with [%d]. *)
Definition logfile_name (fnm : string) (id : Z) (ext : string) : string :=
  fnm +:+ "."%string +:+ pretty (to_int id) +:+ "."%string +:+ ext.

(** [sizeof(fname)], the array [sprintf] writes the name to. *)
Definition FNAME_SIZE : Z := 1024.

(** The [do ... while (access(fname, F_OK) == 0)] loop over the names
    present on disk: the name settled on and the new value of [next_id].
    [sprintf] does not know the size of [fname]: a name that with its
    terminating NUL takes more than [FNAME_SIZE] bytes is written past
    the end of the array. *)
Fixpoint probe (fuel : nat) (names : gset string) (fnm ext : string)
    (id : Z) : outcome (string * Z) :=
  match fuel with
  | O => Spinning
  | S fuel' =>
      let fname := logfile_name fnm id ext in
      let id' := wrap_uint (id + 1) in
      if FNAME_SIZE <=? Z.of_nat (String.length fname) then Fault
      else if bool_decide (fname ∈ names) then probe fuel' names fnm ext id'
      else Done (fname, id')
  end.

Definition open_failed : string :=
  "Failed to open memcached log file"%string +:+ nl.

(** [open_logfile]. [ok] tells whether [iops.open(fname, "wb")] succeeds;
    a successful open creates the file empty. One probe more than there
    are files on disk is all the loop can need. *)
Definition open_logfile (ok : bool) (g : globals) (w : world) (fnm : string)
  : outcome (HANDLE * globals * world) :=
  match probe (S (size (dom (disk w)))) (dom (disk w)) fnm (extension g)
          (next_id g) with
  | Done (fname, id') =>
      let g' := set_next_id g id' in
      if ok then
        Done (Some fname, g',
              World (<[fname := []]> (disk w)) (stderr w)
                    (iolog w ++ [IoOpen fname true]))
      else
        Done (None, g',
              World (disk w) (stderr w ++ [Fprintf open_failed])
                    (iolog w ++ [IoOpen fname false]))
  | Spinning => Spinning
  | Fault => Fault
  end.

Definition close_logfile (fp : HANDLE) (w : world) : world :=
  match fp with
  | Some path => log_io w (IoClose path)
  | None => w
  end.

Definition reopen_logfile (ok : bool) (old : HANDLE) (g : globals)
    (w : world) (fnm : string) : outcome (HANDLE * globals * world) :=
  open_logfile ok g (close_logfile old w) fnm.

(** ** The flusher thread *)

(** The locals of [logger_thead_main]. *)
Record worker := Worker {
  fp : HANDLE;
  currsize : Z;
  next : Z
}.

Definition flip (i : Z) : Z := if i =? 0 then 1 else 0.

(** The guard of the inner [while]. *)
Definition should_drain (tp_sec : Z) (g : globals) (k : worker) : bool :=
  (next k <=? tp_sec)
  || over_high_water g (offset (buffers g (currbuffer g))).

(** The body of the inner [while]: swap the buffers, drain the one that
    was active, rotate when the byte count has passed [cyclesz]. [fnm] is
    the thread's argument. *)
Definition drain_cycle (rs : list Z) (open_ok : bool) (fnm : string)
    (tp_sec : Z) (g : globals) (k : worker) (w : world)
  : outcome (globals * worker * world * list Z) :=
  let next' := wrap_uint (tp_sec + 1) in
  let this := currbuffer g in
  let g1 := set_currbuffer g (flip (currbuffer g)) in
  let* (ret, lb, w1, rs') := flush_pending_io rs (fp k) w (buffers g1 this) in
  let g2 := set_buffer g1 this lb in
  let currsize' := wrap_size (currsize k + ret) in
  if cyclesz g2 <? currsize' then
    let* (fp', g3, w2) := reopen_logfile open_ok (fp k) g2 w1 fnm in
    Done (g3, Worker fp' 0 next', w2, rs')
  else Done (g2, Worker (fp k) currsize' next', w1, rs').

(** The code after the outer loop, run with the mutex held: drain while
    the active buffer holds data, then close. Nothing is done when [fp]
    is [NULL]. *)
Fixpoint final_drain (fuel : nat) (rs : list Z) (file : HANDLE)
    (g : globals) (w : world) : outcome (globals * world * list Z) :=
  match fuel with
  | O => Spinning
  | S fuel' =>
      if offset (buffers g (currbuffer g)) =? 0 then Done (g, w, rs)
      else
        let this := currbuffer g in
        let g1 := set_currbuffer g (flip (currbuffer g)) in
        let* (_, lb, w1, rs') := flush_pending_io rs file w (buffers g1 this) in
        final_drain fuel' rs' file (set_buffer g1 this lb) w1
  end.

Definition worker_exit (rs : list Z) (g : globals) (k : worker) (w : world)
  : outcome (globals * world * list Z) :=
  match fp k with
  | Some path =>
      let* (g', w', rs') := final_drain 3 rs (fp k) g w in
      Done (g', close_logfile (fp k) w', rs')
  | None => Done (g, w, rs)
  end.

(** The start of [logger_thead_main]: the first file is opened, the byte
    count is zero and [next] is the current time. *)
Definition worker_start (open_ok : bool) (fnm : string) (now : Z)
    (g : globals) (w : world) : outcome (globals * worker * world) :=
  let* (fp0, g', w') := open_logfile open_ok g w fnm in
  Done (g', Worker fp0 0 (wrap_uint now), w').

(** What goes on around one cycle: the answers of the backend, whether
    the open of a rotation succeeds, and what the other threads have
    done to the statics by the time the mutex is taken again. *)
Record cycle_env := CycleEnv {
  answers : list Z;
  open_ok : bool;
  meanwhile : globals → globals
}.

(** The inner [while], for the time [tp_sec] read before it. *)
Fixpoint drain_while (cycles : list cycle_env) (fnm : string) (tp_sec : Z)
    (g : globals) (k : worker) (w : world)
  : outcome (globals * worker * world) :=
  if should_drain tp_sec g k then
    match cycles with
    | [] => Spinning
    | c :: later =>
        let* (g', k', w', _) :=
          drain_cycle (answers c) (open_ok c) fnm tp_sec g k w in
        drain_while later fnm tp_sec (meanwhile c g') k' w'
    end
  else Done (g, k, w).

(** One turn of the outer loop: the two readings of the clock, the
    cycles of the inner loop, and what the other threads have done when
    [pthread_cond_timedwait] returns. *)
Record round := Round {
  tp_sec : Z;
  cycles : list cycle_env;
  tp_sec_after : Z;
  asleep : globals → globals
}.

(** [while (run) { ... }] followed by the exit code; [last_answers] are
    the answers of the backend to the final drain. *)
Fixpoint worker_loop (rounds : list round) (last_answers : list Z)
    (fnm : string) (g : globals) (k : worker) (w : world)
  : outcome (globals * world) :=
  if run g =? 0 then
    let* (g', w', _) := worker_exit last_answers g k w in Done (g', w')
  else
    match rounds with
    | [] => Spinning
    | r :: later =>
        let* (g', k', w') := drain_while (cycles r) fnm (tp_sec r) g k w in
        let next' := wrap_uint (tp_sec_after r + wrap_uint (sleeptime g')) in
        worker_loop later last_answers fnm (asleep r g')
          (Worker (fp k') (currsize k') next') w'
    end.

(** [logger_thead_main]: [arg] is the file name, [first_open] tells
    whether the first open succeeds and [now] is [time(NULL)]. *)
Definition logger_thead_main (first_open : bool) (now : Z)
    (rounds : list round) (last_answers : list Z) (arg : string)
    (g : globals) (w : world) : outcome (globals * world) :=
  let* (g', k, w') := worker_start first_open arg now g w in
  worker_loop rounds last_answers arg g' k w'.

(** [exit_handler]: clears [run]; the signal on [cond] and the join are
    the flusher thread reaching its exit code. *)
Definition exit_handler (g : globals) : globals :=
  Globals (current_log_level g) (output_level g) (cyclesz g)
    (buffers0 g) (buffers1 g) (currbuffer g) (prettyprint g)
    (compress_files g) (buffersz g) (sleeptime g) (extension g)
    (next_id g) 0.

(** ** Severities

    [EXTENSION_LOG_LEVEL] is declared in memcached/extension.h, which is
    not among these sources: the values of its four enumerators are a
    parameter of everything below that mentions them. *)
Record log_levels := LogLevels {
  EXTENSION_LOG_DETAIL : Z;
  EXTENSION_LOG_DEBUG : Z;
  EXTENSION_LOG_INFO : Z;
  EXTENSION_LOG_WARNING : Z
}.

(** ** Reading the clock *)

Record timeval := Timeval {
  tv_sec : Z;
  tv_usec : Z
}.

(** What the C library answers during one call of [logger_log]:
    [gettimeofday] ([None] when it fails, [strerror_errno] then being the
    text of [strerror(errno)]), the string [asctime_r] produces for the
    local time ([None] for [NULL]) and the time zone name. *)
Record time_env := TimeEnv {
  gettimeofday : option timeval;
  strerror_errno : string;
  asctime_r : option string;
  tm_zone : string
}.

(** [%u] of an [unsigned int]. *)
Definition fmt_u (z : Z) : string := pretty (Z.to_N (wrap_uint z)).

Fixpoint zeros (n : nat) : string :=
  match n with
  | O => EmptyString
  | S n' => String "0"%char (zeros n')
  end.

(** [%06u] *)
Definition fmt_06u (z : Z) : string :=
  let s := fmt_u z in zeros (6 - String.length s) +:+ s.

(** [str[strlen(str) - 6] = 0]: drops the year and the newline that end
    the 25 characters of [asctime_r]. *)
Definition trim_year (str : string) : string :=
  substring 0 (String.length str - 6) str.

Definition timestamp (c : time_env) (now : timeval) : string :=
  match asctime_r c with
  | None => fmt_u (tv_sec now) +:+ "."%string +:+ fmt_06u (tv_usec now)
  | Some str =>
      trim_year str +:+ "."%string +:+ fmt_06u (tv_usec now)
        +:+ " "%string +:+ tm_zone c
  end.

Section Levels.

Variable L : log_levels.

Definition severity2string (sev : Z) : string :=
  if sev =? EXTENSION_LOG_WARNING L then "WARNING"%string
  else if sev =? EXTENSION_LOG_INFO L then "INFO   "%string
  else if sev =? EXTENSION_LOG_DEBUG L then "DEBUG  "%string
  else if sev =? EXTENSION_LOG_DETAIL L then "DETAIL "%string
  else "????   "%string.

Definition severity_tag (g : globals) (sev : Z) : string :=
  if prettyprint g then " "%string +:+ severity2string sev +:+ ": "%string
  else " "%string +:+ fmt_u sev +:+ ": "%string.

(** ** logger_log *)

(** [sizeof(buffer) - 1], the room for a rendered record. *)
Definition MAX_RECORD : Z := 2047.

Fixpoint ends_with_newline (s : string) : bool :=
  match s with
  | EmptyString => false
  | String c EmptyString => bool_decide (c = newline)
  | String _ rest => ends_with_newline rest
  end.

Definition slen (s : string) : Z := Z.of_nat (String.length s).

(** The text a record is made of: timestamp, severity tag, message, and
    a newline when the message does not end in one. *)
Definition record_prefix (g : globals) (sev : Z) (ts : string) : string :=
  ts +:+ severity_tag g sev.

Definition terminate_line (line : string) : string :=
  if ends_with_newline line then line else line +:+ nl.

Definition rendered_record (g : globals) (sev : Z) (ts msg : string)
  : string :=
  terminate_line (record_prefix g sev ts +:+ msg).

(** Rendering into [buffer]. [msg] is the text [vsnprintf] formats from
    [fmt] and the arguments, [len] its length. [avail] is a [size_t]:
    were the prefix longer than [MAX_RECORD], [avail -= prefixlen] would
    wrap and the next [vsnprintf] write past the buffer. [len < avail]
    compares an [int] with a [size_t]; a message too long for an [int]
    makes [vsnprintf] return a negative number, which the comparison
    reads as a huge one, so for every message the test is the one on
    lengths written here. [Some]: the record; [None]: dropped. *)
Definition render (g : globals) (sev : Z) (ts msg : string)
  : outcome (option string) :=
  let prefixlen := slen (record_prefix g sev ts) in
  if MAX_RECORD <? prefixlen then Fault
  else
    let avail := MAX_RECORD - prefixlen in
    if slen msg <? avail then Done (Some (rendered_record g sev ts msg))
    else Done None.

Definition too_big : string := "Log message dropped... too big"%string +:+ nl.

Definition gettimeofday_failed (c : time_env) : string :=
  "gettimeofday failed: "%string +:+ strerror_errno c +:+ nl.

(** [logger_log]. [wakeups] is handed to [add_log_entry]. *)
Definition logger_log (c : time_env) (wakeups : list globals) (g : globals)
    (w : world) (severity : Z) (msg : string) : call_result :=
  if (current_log_level g <=? severity) || (output_level g <=? severity) then
    match gettimeofday c with
    | Some now =>
        match render g severity (timestamp c now) msg with
        | Done (Some buffer) =>
            let w1 :=
              if output_level g <=? severity
              then to_stderr w [Fputs buffer; Fflush] else w in
            if current_log_level g <=? severity then
              add_log_entry wakeups g w1 (bytes_of buffer) (slen buffer)
            else Returned g w1
        | Done None => Returned g (to_stderr w [Fprintf too_big])
        | _ => Undefined
        end
    | None => Returned g (to_stderr w [Fprintf (gettimeofday_failed c)])
    end
  else Returned g w.

(** ** Start-up *)

Inductive EXTENSION_ERROR_CODE :=
| EXTENSION_SUCCESS
| EXTENSION_FATAL.

(** The values [parse_config] stores for the keys it finds. *)
Record config_items := ConfigItems {
  cfg_filename : option string;
  cfg_buffersize : option Z;
  cfg_cyclesize : option Z;
  cfg_loglevel : option string;
  cfg_prettyprint : option bool;
  cfg_sleeptime : option Z;
  cfg_compress : option bool
}.

(** The server API and the C library as seen by the start-up code:
    [parse_config] tells whether it returned [ENGINE_SUCCESS] and what it
    stored; [malloc n size] is what the [n]-th call of [malloc] returns,
    the fresh segment or [None] for [NULL]; [pthread_create] is that
    function's return value, 0 when the thread has been created and an
    error number otherwise. *)
Record server_api := ServerApi {
  get_level : Z;
  parse_config : string → bool * config_items;
  register_extension : bool
}.

Record init_env := InitEnv {
  get_server_api : option server_api;
  supports_zlib : bool;
  malloc : nat → Z → option (list byte);
  strdup_ok : bool;
  pthread_create : Z
}.

Definition tolower (c : ascii) : ascii :=
  let n := nat_of_ascii c in
  if ((65 <=? n) && (n <=? 90))%nat then ascii_of_nat (n + 32) else c.

(** [strcasecmp(a, b) == 0] *)
Fixpoint strcasecmp_eq (a b : string) : bool :=
  match a, b with
  | EmptyString, EmptyString => true
  | String x a', String y b' =>
      bool_decide (tolower x = tolower y) && strcasecmp_eq a' b'
  | _, _ => false
  end.

(** The initial values of the statics. *)
Definition initial_globals : globals :=
  Globals (EXTENSION_LOG_WARNING L) (EXTENSION_LOG_WARNING L)
    (100 * 1024 * 1024) (Logbuffer [] 0) (Logbuffer [] 0) 0 false false
    (2048 * 1024) 60 "txt" 0 1.

(** The stores [parse_config] makes through the pointers of [items]. *)
Definition store_items (g : globals) (it : config_items) : globals :=
  Globals (current_log_level g) (output_level g)
    (default (cyclesz g) (cfg_cyclesize it))
    (buffers0 g) (buffers1 g) (currbuffer g)
    (default (prettyprint g) (cfg_prettyprint it))
    (default (compress_files g) (cfg_compress it))
    (default (buffersz g) (cfg_buffersize it))
    (default (sleeptime g) (cfg_sleeptime it))
    (extension g) (next_id g) (run g).

Definition set_extension (g : globals) (e : string) : globals :=
  Globals (current_log_level g) (output_level g) (cyclesz g)
    (buffers0 g) (buffers1 g) (currbuffer g) (prettyprint g)
    (compress_files g) (buffersz g) (sleeptime g) e (next_id g) (run g).

Definition set_output_level (g : globals) (l : Z) : globals :=
  Globals (current_log_level g) l (cyclesz g)
    (buffers0 g) (buffers1 g) (currbuffer g) (prettyprint g)
    (compress_files g) (buffersz g) (sleeptime g) (extension g)
    (next_id g) (run g).

(** The [strcasecmp] chain on the [loglevel] value. *)
Definition parse_loglevel (loglevel : string) : option Z :=
  if strcasecmp_eq "warning" loglevel then Some (EXTENSION_LOG_WARNING L)
  else if strcasecmp_eq "info" loglevel then Some (EXTENSION_LOG_INFO L)
  else if strcasecmp_eq "debug" loglevel then Some (EXTENSION_LOG_DEBUG L)
  else if strcasecmp_eq "detail" loglevel then Some (EXTENSION_LOG_DETAIL L)
  else None.

Definition unknown_loglevel (loglevel : string) : string :=
  "Unknown loglevel: "%string +:+ loglevel
    +:+ ". Use warning/info/debug/detail"%string +:+ nl.

Definition alloc_failed : string :=
  "Failed to allocate memory for the logger"%string +:+ nl.

Definition thread_failed : string :=
  "Failed to initialize the logger"%string +:+ nl.

(** The [if (config != NULL)] block: [inr] is the early
    [return EXTENSION_FATAL]. The third component is [fname]. *)
Definition read_config (e : init_env) (api : server_api) (config : string)
    (g : globals) (w : world)
  : globals * world * option string + globals * world :=
  let '(ok, it) := parse_config api config in
  let g1 := store_items g it in
  if negb ok then inr (g1, w)
  else
    let g2 :=
      if compress_files g1 && supports_zlib e then set_extension g1 "gz"
      else g1 in
    match cfg_loglevel it with
    | None => inl (g2, w, cfg_filename it)
    | Some loglevel =>
        match parse_loglevel loglevel with
        | Some l => inl (set_output_level g2 l, w, cfg_filename it)
        | None =>
            inr (g2, to_stderr w [Fprintf (unknown_loglevel loglevel)])
        end
    end.

(** The code after the [if (config != NULL)] block: the default file
    name, the two buffers, the flusher thread, the server's log level and
    the registration. The last component is the argument of the flusher
    thread when there is one, that is when [pthread_create] returned 0;
    the code itself only tests for a negative result. *)
Definition start_logger (e : init_env) (api : server_api) (g : globals)
    (w : world) (fname0 : option string)
  : EXTENSION_ERROR_CODE * globals * world * option string :=
  let fname :=
    match fname0 with
    | Some f => Some f
    | None => if strdup_ok e then Some "memcached"%string else None
    end in
  match malloc e 0%nat (buffersz g), malloc e 1%nat (buffersz g), fname with
  | Some d0, Some d1, Some fnm =>
      let g2 :=
        set_buffer (set_buffer g 0 (Logbuffer d0 (offset (buffers0 g))))
          1 (Logbuffer d1 (offset (buffers1 g))) in
      if pthread_create e <? 0 then
        (EXTENSION_FATAL, g2, to_stderr w [Fprintf thread_failed], None)
      else
        let g3 := set_current_log_level g2 (get_level api) in
        let thread := if pthread_create e =? 0 then Some fnm else None in
        if register_extension api
        then (EXTENSION_SUCCESS, g3, w, thread)
        else (EXTENSION_FATAL, g3, w, thread)
  | _, _, _ =>
      (EXTENSION_FATAL, g, to_stderr w [Fprintf alloc_failed], None)
  end.

(** [memcached_extensions_initialize]: the return code, the statics, the
    world and, when the flusher thread has been created, its argument. *)
Definition memcached_extensions_initialize (e : init_env)
    (config : option string) (g : globals) (w : world)
  : EXTENSION_ERROR_CODE * globals * world * option string :=
  match get_server_api e with
  | None => (EXTENSION_FATAL, g, w, None)
  | Some api =>
      let parsed :=
        match config with
        | Some cfg => read_config e api cfg g w
        | None => inl (g, w, None)
        end in
      match parsed with
      | inr (g1, w1) => (EXTENSION_FATAL, g1, w1, None)
      | inl (g1, w1, fname0) => start_logger e api g1 w1 fname0
      end
  end.

(** [on_log_level], the [ON_LOG_LEVEL] callback; [sapi] is the static
    pointer to the server API. *)
Definition on_log_level (sapi : option server_api) (g : globals) : globals :=
  match sapi with
  | Some api => set_current_log_level g (get_level api)
  | None => g
  end.

End Levels.

(** ** Runs and assumptions on the environment *)


(** Room in [fname] for every name a counter below [2^31] can give: the
    base name, two dots, at most ten digits, the extension and the
    terminating NUL. *)
Definition names_fit (fnm ext : string) : Prop :=
  Z.of_nat (String.length fnm) + Z.of_nat (String.length ext) + 12
  < FNAME_SIZE.


(** The sequence number of the file an [open_logfile] settled on, read
    off the statics it leaves: [next_id] is one past it. *)
Definition sequence_number (res : HANDLE * globals * world) : Z :=
  next_id res.1.2 - 1.

(** What one call of [open_logfile] in statics [g] and world [w] did:
    it settled on the first sequence number from [next_id] on whose name
    is not on disk, and passed that name to [iops.open]. *)
Definition opened_fresh (fnm : string) (g : globals) (ok : bool) (w : world)
    (res : HANDLE * globals * world) : Prop :=
  let name := logfile_name fnm (sequence_number res) (extension g) in
  next_id g ≤ sequence_number res
  ∧ extension res.1.2 = extension g
  ∧ res.1.1 = (if ok then Some name else None)
  ∧ (name ∉ dom (disk w))
  ∧ (∀ j, next_id g ≤ j < sequence_number res →
          logfile_name fnm j (extension g) ∈ dom (disk w))
  ∧ iolog res.2 = iolog w ++ [IoOpen name ok].


(** A backend that keeps the contract of [fwrite] and [gzwrite]: asked
    for [towrite] bytes it never reports more than [towrite], and what it
    reports fits an [int]. *)
Fixpoint honest (rs : list Z) (towrite : Z) : bool :=
  match rs with
  | [] => true
  | r :: rs' =>
      (towrite <=? 0)
      || ((- 2 ^ 31 <=? r) && (r <=? towrite)
          && honest rs' (if 0 <? r then towrite - r else towrite))
  end.

(** A backend that keeps that contract and never accepts [2^31] bytes or
    more in one call, whatever the size of the request: what it reports
    is then the value of the [int] it is stored in. *)
Fixpoint piecemeal (rs : list Z) (towrite : Z) : bool :=
  match rs with
  | [] => true
  | r :: rs' =>
      (towrite <=? 0)
      || ((- 2 ^ 31 <=? r) && (r <=? Z.min towrite INT_MAX)
          && piecemeal rs' (if 0 <? r then towrite - r else towrite))
  end.

(** The number of bytes the backend accepts over the calls of [rs]. *)
Fixpoint progress (rs : list Z) : Z :=
  match rs with
  | [] => 0
  | r :: rs' => Z.max r 0 + progress rs'
  end.

(** [w'] is [w] with [bs] added at the end of the file [path]: the other
    files and [stderr] are the same, and no file has gone. *)
Definition appended_to (w w' : world) (path : string) (bs : list byte)
  : Prop :=
  file_contents w' path = file_contents w path ++ bs
  ∧ (∀ p, p ≠ path → disk w' !! p = disk w !! p)
  ∧ dom (disk w) ⊆ dom (disk w')
  ∧ stderr w' = stderr w.

(** ** Concrete inputs *)

(** The four severities in ascending order, DETAIL lowest and WARNING
    highest, which is the order the comparisons of [logger_log] rely
    on. *)
Definition memcached_levels : log_levels := LogLevels 0 1 2 3.

Definition empty_world : world := World ∅ [] [].

Definition sixteen_bytes : list byte := replicate 16 x00.

(** Statics with 16-byte buffers, [off] bytes used in the active one. *)
Definition small_globals (off : Z) : globals :=
  Globals 3 3 100 (Logbuffer sixteen_bytes off) (Logbuffer sixteen_bytes 0)
    0 false false 16 60 "txt" 0 1.

(** A buffer holding the five bytes of "hello", and a backend that
    fails, accepts two bytes, accepts nothing, then accepts the rest. *)
Definition hello_buffer : logbuffer :=
  Logbuffer (bytes_of "hello" ++ replicate 11 x00) 5.

Definition stuttering_backend : list Z := [-1; 2; 0; 3].

(** A backend whose every write fails: [fwrite] and [gzwrite] then
    report 0 bytes. *)
Definition failing_backend : list Z := replicate 1000 0.

(** A disk on which the first two log files exist already. *)
Definition used_disk : gmap string (list byte) :=
  {[ "memcached.0.txt"%string := bytes_of "old";
     "memcached.1.txt"%string := [] ]}.

Definition used_world : world := World used_disk [] [].


(** The flusher thread at work on its first file, [count] bytes written
    to it so far; the statics once that file has been opened. *)
Definition first_file : string := "memcached.0.txt".

Definition first_file_world : world :=
  World {[ first_file := [] ]} [] [IoOpen first_file true].

Definition worker_at (count : Z) : worker := Worker (Some first_file) count 0.

Definition running_globals (off : Z) : globals :=
  set_next_id (small_globals off) 1.

(** A clock that works, and one that does not. *)
Definition working_clock : time_env :=
  TimeEnv (Some (Timeval 1700000000 42)) EmptyString
    (Some ("Tue Nov 14 22:13:20 2023"%string +:+ nl)) "UTC".

Definition broken_clock : time_env :=
  TimeEnv None "Invalid argument" None "UTC".

(** A clock in a time zone whose name has 2100 letters, as a [TZ]
    variable can declare. *)
Definition long_zone_clock : time_env :=
  TimeEnv (Some (Timeval 1700000000 42)) EmptyString
    (Some ("Tue Nov 14 22:13:20 2023"%string +:+ nl))
    (string_of_list_ascii (replicate 2100 "A"%char)).

(** A server whose log level is WARNING and whose [parse_config] finds
    the keys [loglevel=debug] and [buffersize=16] in every configuration
    string; a C library in which every allocation succeeds. *)
Definition debug_items : config_items :=
  ConfigItems None (Some 16) None (Some "debug"%string) None None None.

Definition warning_server : server_api :=
  ServerApi (EXTENSION_LOG_WARNING memcached_levels) (λ _, (true, debug_items))
    true.

Definition generous_env : init_env :=
  InitEnv (Some warning_server) false
    (λ _ size, Some (replicate (Z.to_nat size) x00)) true 0.

Definition debug_config : string := "loglevel=debug;buffersize=16".

(** A server whose [parse_config] rejects every configuration string,
    though not before it has stored what it found. *)
Definition garbled_server : server_api :=
  ServerApi (EXTENSION_LOG_WARNING memcached_levels)
    (λ _, (false, debug_items)) true.

Definition garbled_env : init_env :=
  InitEnv (Some garbled_server) false
    (λ _ size, Some (replicate (Z.to_nat size) x00)) true 0.

(** A message of 2100 characters. *)
Definition long_message : string := zeros 2100.

(** ** Invariants *)

(** A buffer of the configured size whose offset leaves at least one
    byte free. *)
Definition buffer_ok (size : Z) (lb : logbuffer) : Prop :=
  0 ≤ offset lb < size ∧ Z.of_nat (length (data lb)) = size.

(** Both buffers are well formed, the size is a [size_t] and the index
    of the active buffer is 0 or 1. *)
Definition buffers_ok (g : globals) : Prop :=
  buffersz g < 2 ^ 64
  ∧ (currbuffer g = 0 ∨ currbuffer g = 1)
  ∧ buffer_ok (buffersz g) (buffers0 g)
  ∧ buffer_ok (buffersz g) (buffers1 g).

(** The bytes of a buffer that are in use. *)
Definition contents (lb : logbuffer) : list byte :=
  take (Z.to_nat (offset lb)) (data lb).

(** A string with its letters in lower case. *)
Fixpoint lowercase (s : string) : string :=
  match s with
  | EmptyString => EmptyString
  | String c rest => String (tolower c) (lowercase rest)
  end.

(** More concrete inputs: statics with room for a record in the active
    buffer, and a thread about to take its first turn. *)
Definition roomy_globals : globals :=
  Globals 3 3 100 hello_buffer (Logbuffer sixteen_bytes 0) 0 false false 16
    60 "txt" 1 1.

Definition quiet_cycle : cycle_env := CycleEnv [5] true (λ g, g).

Definition pretty_globals : globals :=
  Globals 3 3 100 hello_buffer (Logbuffer sixteen_bytes 0) 0 true false 16
    60 "txt" 1 1.

Definition wide_buffer : list byte := replicate 128 x00.

Definition wide_globals : globals :=
  Globals 3 3 1000 (Logbuffer wide_buffer 0) (Logbuffer wide_buffer 0) 0
    false false 128 60 "txt" 0 1.

(** A C library in which [pthread_create] fails with [EAGAIN], which it
    reports by returning 11. *)
Definition eagain_env : init_env :=
  InitEnv (Some warning_server) false
    (λ _ size, Some (replicate (Z.to_nat size) x00)) true 11.

(** * Properties *)

(** ** Machine integers *)

Lemma wrap_size_small z : 0 ≤ z < 2 ^ 64 → wrap_size z = z.
Proof. intros. unfold wrap_size. by apply Z.mod_small. Qed.

Lemma wrap_uint_small z : 0 ≤ z < 2 ^ 32 → wrap_uint z = z.
Proof. intros. unfold wrap_uint. by apply Z.mod_small. Qed.

Lemma to_int_small z : - 2 ^ 31 ≤ z < 2 ^ 31 → to_int z = z.
Proof.
  intros Hz. unfold to_int, wrap_uint.
  destruct (Z_lt_le_dec z 0) as [Hneg|Hpos].
  - replace (z mod 2 ^ 32) with (z + 2 ^ 32).
    + destruct (Z.ltb_spec (z + 2 ^ 32) (2 ^ 31)); lia.
    + apply Z.mod_unique with (-1); lia.
  - rewrite Z.mod_small by lia.
    destruct (Z.ltb_spec z (2 ^ 31)); lia.
Qed.

(** ** The producer side: [add_log_entry] *)

Section Append.

Variables (g : globals) (size : Z).

Let active := buffers g (currbuffer g).

Hypothesis offset_nonneg : 0 ≤ offset active.
Hypothesis size_nonneg : 0 ≤ size.
Hypothesis no_overflow : offset active + size < 2 ^ 64.

(** The caller waits exactly when the record would reach the end of the
    buffer: the last byte of a buffer is never written. *)
Lemma must_wait_iff :
  must_wait g size = true ↔ buffersz g ≤ offset active + size.
Proof.
  unfold must_wait. fold active. rewrite wrap_size_small by lia.
  apply Z.leb_le.
Qed.

Lemma must_wait_false_iff :
  must_wait g size = false ↔ offset active + size < buffersz g.
Proof.
  unfold must_wait. fold active. rewrite wrap_size_small by lia.
  apply Z.leb_gt.
Qed.

End Append.

(** With room in the active buffer the call returns at once, whatever
    the wake-ups: the record lies at the old offset and the offset has
    advanced by its size. *)
Lemma add_log_entry_room wakeups g w msg size :
  must_wait g size = false →
  add_log_entry wakeups g w msg size
  = Returned
      (set_buffer g (currbuffer g)
         (Logbuffer
            (memcpy_at (data (buffers g (currbuffer g)))
               (offset (buffers g (currbuffer g))) msg size)
            (wrap_size (offset (buffers g (currbuffer g)) + size))))
      w.
Proof. intros Hroom. destruct wakeups; simpl; by rewrite Hroom. Qed.

Lemma memcpy_at_prefix dst off src :
  0 ≤ off →
  (Z.to_nat off + length src ≤ length dst)%nat →
  take (Z.to_nat off + length src)
    (memcpy_at dst off src (Z.of_nat (length src)))
  = take (Z.to_nat off) dst ++ src.
Proof.
  intros Hoff Hfit. unfold memcpy_at.
  rewrite Nat2Z.id, firstn_all.
  rewrite app_assoc, take_app_length'; [done|].
  rewrite length_app, length_take. lia.
Qed.

Lemma memcpy_at_length dst off src :
  0 ≤ off →
  (Z.to_nat off + length src ≤ length dst)%nat →
  length (memcpy_at dst off src (Z.of_nat (length src))) = length dst.
Proof.
  intros Hoff Hfit. unfold memcpy_at.
  rewrite Nat2Z.id, firstn_all, !length_app, length_take, length_drop.
  rewrite Z2Nat.inj_add, Nat2Z.id by lia. lia.
Qed.

(** The warnings printed are as many as the times the caller slept. *)
Lemma add_log_entry_warnings wakeups g w msg size :
  match add_log_entry wakeups g w msg size with
  | Returned _ w' | Blocked w' =>
      disk w' = disk w ∧ iolog w' = iolog w
      ∧ stderr w'
        = stderr w ++ replicate (waits wakeups g size) (Fprintf space_warning)
  | Undefined => False
  end.
Proof.
  revert g w. induction wakeups as [|g1 later IH]; intros g w; simpl.
  - destruct (must_wait g size); simpl; by rewrite ?app_nil_r.
  - destruct (must_wait g size); simpl; [|by rewrite app_nil_r].
    specialize (IH g1 (to_stderr w [Fprintf space_warning])).
    destruct (add_log_entry _ _ _ _ _); [| |done];
      destruct IH as (-> & -> & ->); simpl; by rewrite <- app_assoc.
Qed.

(** C1: a record that exactly fills the room left in the active buffer
    ([offset + size = buffersz]) is not accepted: [add_log_entry] prints
    the warning and waits on [space_cond], although the copy would stay
    inside the buffer. *)
Theorem add_log_entry_exact_fill_waits wakeups g w msg size :
  0 ≤ offset (buffers g (currbuffer g)) →
  0 ≤ size →
  buffersz g < 2 ^ 64 →
  offset (buffers g (currbuffer g)) + size = buffersz g →
  must_wait g size = true
  ∧ add_log_entry [] g w msg size
    = Blocked (to_stderr w [Fprintf space_warning])
  ∧ (1 ≤ waits wakeups g size)%nat.
Proof.
  intros Hoff Hsize Hcap Hfill.
  assert (Hwait : must_wait g size = true) by (apply must_wait_iff; lia).
  split; [done|]. split.
  - simpl. by rewrite Hwait.
  - destruct wakeups; simpl; rewrite Hwait; lia.
Qed.

Lemma add_log_entry_exact_fill_waits_witness :
  must_wait (small_globals 10) 6 = true
  ∧ add_log_entry [] (small_globals 10) empty_world
      (bytes_of "record") 6
    = Blocked (to_stderr empty_world [Fprintf space_warning])
  ∧ (1 ≤ waits [small_globals 0] (small_globals 10) 6)%nat.
Proof.
  apply (add_log_entry_exact_fill_waits [small_globals 0] (small_globals 10)
           empty_world (bytes_of "record") 6); simpl; lia.
Defined.

(** ** The drain: [flush_pending_io] *)

Lemma appended_to_refl w path : appended_to w w path [].
Proof. unfold appended_to. by rewrite app_nil_r. Qed.

Lemma appended_to_trans w1 w2 w3 path bs1 bs2 :
  appended_to w1 w2 path bs1 → appended_to w2 w3 path bs2 →
  appended_to w1 w3 path (bs1 ++ bs2).
Proof.
  intros (Hf1 & Ho1 & Hd1 & He1) (Hf2 & Ho2 & Hd2 & He2).
  split; [|split; [|split]].
  - by rewrite Hf2, Hf1, app_assoc.
  - intros p Hp. by rewrite Ho2, Ho1.
  - by etrans.
  - by rewrite He2.
Qed.

(** One call of [iops.write] that reports [r] bytes of a request for
    [towrite]. *)
Lemma iops_write_appended w path ptr towrite r :
  r ≤ towrite →
  appended_to w (iops_write w path ptr towrite r) path
    (take (Z.to_nat r) ptr)
  ∧ iolog (iops_write w path ptr towrite r) = iolog w.
Proof.
  intros Hr. unfold iops_write. destruct (Z.ltb_spec 0 r) as [Hpos|Hnot].
  - split; [|done]. split; [|split; [|split]]; simpl;
      [|by intros; rewrite lookup_insert_ne| |done].
    + unfold file_contents at 1. simpl. rewrite lookup_insert_eq. simpl.
      rewrite take_take. do 2 f_equal. lia.
    + rewrite dom_insert_L. apply union_subseteq_r.
  - replace (Z.to_nat r) with 0%nat by lia.
    split; [apply appended_to_refl|done].
Qed.

(** A write that reports nothing is repeated with the same request. *)
Lemma write_loop_retry r rs path w ptr towrite :
  - 2 ^ 31 ≤ r ≤ 0 → 0 < towrite →
  write_loop (r :: rs) path w ptr towrite = write_loop rs path w ptr towrite.
Proof.
  intros Hr Hto. simpl.
  destruct (Z.ltb_spec 0 towrite); [|lia].
  rewrite to_int_small by lia.
  destruct (Z.ltb_spec 0 r); [lia|].
  unfold iops_write. by destruct (Z.ltb_spec 0 r); [lia|].
Qed.

(** So is a write that reports [2^31] bytes or more, up to [2^32 - 1]:
    the bytes are in the file, but the [int] that takes the result is
    negative. *)
Lemma write_loop_int_wraps r rs path w ptr towrite :
  2 ^ 31 ≤ r < 2 ^ 32 → 0 < towrite →
  write_loop (r :: rs) path w ptr towrite
  = write_loop rs path (iops_write w path ptr towrite r) ptr towrite.
Proof.
  intros Hr Hto. simpl.
  destruct (Z.ltb_spec 0 towrite); [|lia].
  unfold to_int. rewrite wrap_uint_small by lia.
  destruct (Z.ltb_spec r (2 ^ 31)); [lia|].
  by destruct (Z.ltb_spec 0 (r - 2 ^ 32)); [lia|].
Qed.

(** Against a backend that only fails the loop does not end. *)
Lemma write_loop_stuck rs : ∀ path w ptr towrite,
  Forall (λ r, - 2 ^ 31 ≤ r ≤ 0) rs → 0 < towrite →
  write_loop rs path w ptr towrite = None.
Proof.
  induction rs as [|r rs IH]; intros path w ptr towrite Hall Hto.
  - simpl. by destruct (Z.ltb_spec 0 towrite); [|lia].
  - apply Forall_cons in Hall as [Hr Hall].
    rewrite write_loop_retry by done. by apply IH.
Qed.

(** A backend that keeps the contract for a request that fits an [int]
    accepts less than [2^31] bytes per call. *)
Lemma honest_piecemeal rs : ∀ towrite,
  towrite ≤ INT_MAX → honest rs towrite = true →
  piecemeal rs towrite = true.
Proof.
  induction rs as [|r rs IH]; intros towrite Hto Hhon; [done|].
  simpl in *. destruct (Z.leb_spec towrite 0); [done|]. simpl in *.
  apply andb_prop in Hhon as [Hr Hhon]. apply andb_prop in Hr as [Hlo Hhi].
  apply Z.leb_le in Hhi. rewrite Hlo.
  destruct (Z.leb_spec r (Z.min towrite INT_MAX)); [|lia]. simpl.
  apply IH; [|done]. destruct (Z.ltb_spec 0 r); lia.
Qed.

(** When the loop ends, the [towrite] bytes at [ptr] are in the file. *)
Lemma write_loop_pieces rs : ∀ path w ptr towrite w' rs',
  0 ≤ towrite < 2 ^ 64 →
  piecemeal rs towrite = true →
  write_loop rs path w ptr towrite = Some (w', rs') →
  appended_to w w' path (take (Z.to_nat towrite) ptr) ∧ iolog w' = iolog w.
Proof.
  unfold INT_MAX.
  induction rs as [|r rs IH]; intros path w ptr towrite w' rs' Hto Hhon Hrun;
    simpl in Hrun; destruct (Z.ltb_spec 0 towrite) as [Hpos|Hzero];
    try discriminate.
  - injection Hrun as <- <-. replace (Z.to_nat towrite) with 0%nat by lia.
    split; [apply appended_to_refl|done].
  - simpl in Hhon. destruct (Z.leb_spec towrite 0); [lia|]. simpl in Hhon.
    apply andb_prop in Hhon as [Hr Hhon]. apply andb_prop in Hr as [Hlo Hhi].
    apply Z.leb_le in Hlo, Hhi. unfold INT_MAX in Hhi.
    rewrite to_int_small in Hrun by lia.
    destruct (iops_write_appended w path ptr towrite r) as [Hone Hlog];
      [lia|].
    destruct (Z.ltb_spec 0 r) as [Hprog|Hfail].
    + rewrite wrap_size_small in Hrun by lia.
      apply IH in Hrun as [Hrest Hlog']; [|lia|done].
      split; [|congruence].
      replace (Z.to_nat towrite)
        with (Z.to_nat r + Z.to_nat (towrite - r))%nat by lia.
      rewrite <- take_take_drop. by eapply appended_to_trans.
    + apply IH in Hrun as [Hrest Hlog']; [|lia|done].
      split; [|congruence].
      replace (Z.to_nat r) with 0%nat in Hone by lia.
      by apply (appended_to_trans _ _ _ _ [] _ Hone).
  - injection Hrun as <- <-. replace (Z.to_nat towrite) with 0%nat by lia.
    split; [apply appended_to_refl|done].
Qed.

(** The loop ends once the backend has accepted enough bytes. *)
Lemma write_loop_ends_pieces rs : ∀ path w ptr towrite,
  0 ≤ towrite < 2 ^ 64 →
  piecemeal rs towrite = true →
  towrite ≤ progress rs →
  is_Some (write_loop rs path w ptr towrite).
Proof.
  unfold INT_MAX.
  induction rs as [|r rs IH]; intros path w ptr towrite Hto Hhon Hprog;
    simpl in *; destruct (Z.ltb_spec 0 towrite) as [Hpos|Hzero];
    try done; try lia.
  destruct (Z.leb_spec towrite 0); [lia|]. simpl in Hhon.
  apply andb_prop in Hhon as [Hr Hhon]. apply andb_prop in Hr as [Hlo Hhi].
  apply Z.leb_le in Hlo, Hhi. unfold INT_MAX in Hhi.
  rewrite to_int_small by lia.
  destruct (Z.ltb_spec 0 r) as [Hgo|Hfail].
  - rewrite wrap_size_small by lia. apply IH; [lia|done|lia].
  - apply IH; [lia|done|lia].
Qed.

Lemma write_loop_writes rs path w ptr towrite w' rs' :
  0 ≤ towrite ≤ INT_MAX →
  honest rs towrite = true →
  write_loop rs path w ptr towrite = Some (w', rs') →
  appended_to w w' path (take (Z.to_nat towrite) ptr) ∧ iolog w' = iolog w.
Proof.
  intros Hto Hhon. apply write_loop_pieces; [unfold INT_MAX in Hto; lia|].
  apply honest_piecemeal; [lia|done].
Qed.

Lemma write_loop_ends rs path w ptr towrite :
  0 ≤ towrite ≤ INT_MAX →
  honest rs towrite = true →
  towrite ≤ progress rs →
  is_Some (write_loop rs path w ptr towrite).
Proof.
  intros Hto Hhon. apply write_loop_ends_pieces; [unfold INT_MAX in Hto; lia|].
  apply honest_piecemeal; [lia|done].
Qed.

Lemma buffers_set_currbuffer g i j :
  buffers (set_currbuffer g i) j = buffers g j.
Proof. done. Qed.

(** What a drain has done when it has returned. *)
Lemma flush_pending_io_pieces rs path w lb ret lb' w' rs' :
  0 ≤ offset lb < 2 ^ 64 →
  piecemeal rs (offset lb) = true →
  flush_pending_io rs (Some path) w lb = Done (ret, lb', w', rs') →
  ret = offset lb
  ∧ lb' = Logbuffer (data lb) 0
  ∧ appended_to w w' path (contents lb)
  ∧ iolog w' = iolog w ++ (if 0 <? offset lb then [IoFlush path] else [])
  ∧ (offset lb = 0 → lb' = lb ∧ w' = w ∧ rs' = rs).
Proof.
  intros Hoff Hhon. unfold flush_pending_io, contents.
  destruct (Z.ltb_spec 0 (offset lb)) as [Hpos|Hzero].
  - destruct (write_loop rs path w (data lb) (offset lb))
      as [[w1 rs1]|] eqn:Hloop; [|done].
    intros [= <- <- <- <-].
    apply write_loop_pieces in Hloop as [(Hf & Ho & Hd & He) Hlog];
      [|done..].
    simpl. rewrite Hlog. repeat split; try done; lia.
  - intros [= <- <- <- <-].
    assert (offset lb = 0) as Hz by lia.
    rewrite Hz. destruct lb as [d o]. simpl in *. subst o.
    rewrite app_nil_r. repeat split; try done. apply appended_to_refl.
Qed.

(** A drain returns once the backend has accepted as many bytes as the
    buffer holds. *)
Lemma flush_pending_io_total rs path w lb :
  0 ≤ offset lb < 2 ^ 64 →
  piecemeal rs (offset lb) = true →
  offset lb ≤ progress rs →
  ∃ w' rs',
    flush_pending_io rs (Some path) w lb
    = Done (offset lb, Logbuffer (data lb) 0, w', rs')
    ∧ appended_to w w' path (contents lb)
    ∧ iolog w' = iolog w ++ (if 0 <? offset lb then [IoFlush path] else []).
Proof.
  intros Hoff Hhon Hprog.
  assert (∃ r, flush_pending_io rs (Some path) w lb = Done r)
    as [[[[ret lb'] w'] rs'] Hrun].
  { unfold flush_pending_io.
    destruct (Z.ltb_spec 0 (offset lb)); [|by eexists].
    destruct (write_loop_ends_pieces rs path w (data lb) (offset lb))
      as [[w' rs'] ->]; by eauto. }
  pose proof (flush_pending_io_pieces _ _ _ _ _ _ _ _ Hoff Hhon Hrun)
    as (-> & -> & Happ & Hlog & _).
  by exists w', rs'.
Qed.

Lemma flush_pending_io_returns rs path w lb :
  0 ≤ offset lb ≤ INT_MAX →
  honest rs (offset lb) = true →
  offset lb ≤ progress rs →
  ∃ r, flush_pending_io rs (Some path) w lb = Done r.
Proof.
  intros Hoff Hhon Hprog.
  destruct (flush_pending_io_total rs path w lb) as (w' & rs' & -> & _);
    [unfold INT_MAX in Hoff; lia|apply honest_piecemeal; [lia|done]|done|].
  by eexists.
Qed.

Lemma flush_pending_io_done rs path w lb ret lb' w' rs' :
  0 ≤ offset lb ≤ INT_MAX →
  honest rs (offset lb) = true →
  flush_pending_io rs (Some path) w lb = Done (ret, lb', w', rs') →
  ret = offset lb
  ∧ lb' = Logbuffer (data lb) 0
  ∧ appended_to w w' path (take (Z.to_nat (offset lb)) (data lb))
  ∧ (offset lb = 0 → lb' = lb ∧ w' = w ∧ rs' = rs).
Proof.
  intros Hoff Hhon Hrun.
  apply flush_pending_io_pieces in Hrun as (? & ? & ? & _ & ?);
    [done|unfold INT_MAX in Hoff; lia|apply honest_piecemeal; [lia|done]].
Qed.

(** One cycle of the flusher thread on an open file, taken apart: the
    drained bytes are appended, then either the file is reopened and the
    count starts again from 0, or the count is the old one plus the
    bytes drained. *)
Lemma drain_cycle_done rs ok fnm tp g k w path g' k' w' rs' :
  let drained := buffers g (currbuffer g) in
  let total := wrap_size (currsize k + offset drained) in
  let g2 := set_buffer (set_currbuffer g (flip (currbuffer g)))
              (currbuffer g) (Logbuffer (data drained) 0) in
  fp k = Some path →
  0 ≤ offset drained ≤ INT_MAX →
  honest rs (offset drained) = true →
  drain_cycle rs ok fnm tp g k w = Done (g', k', w', rs') →
  ∃ w1,
    appended_to w w1 path (take (Z.to_nat (offset drained)) (data drained))
    ∧ if cyclesz g <? total
      then reopen_logfile ok (Some path) g2 w1 fnm = Done (fp k', g', w')
           ∧ currsize k' = 0
      else g' = g2 ∧ fp k' = Some path ∧ currsize k' = total ∧ w' = w1.
Proof.
  intros drained total g2 Hfp Hoff Hhon. unfold drain_cycle.
  rewrite buffers_set_currbuffer, Hfp. fold drained.
  destruct (flush_pending_io rs (Some path) w drained)
    as [[[[ret lb1] w1] rs1]| |] eqn:Hflush; simpl; [|done..].
  apply flush_pending_io_done in Hflush as (-> & -> & Happ & _); [|done..].
  fold g2 total. change (cyclesz g2) with (cyclesz g).
  destruct (cyclesz g <? total).
  - destruct (reopen_logfile ok (Some path) g2 w1 fnm)
      as [[[fp1 g3] w2]| |] eqn:Hopen; simpl; [|done..].
    intros [= <- <- <- <-]. by exists w1.
  - intros [= <- <- <- <-]. by exists w1.
Qed.

(** The same cycle as a function of what the backend does: once the
    backend has accepted the bytes of the buffer, the cycle is the
    rotation step applied to the world the drain leaves. *)
Lemma drain_cycle_total rs ok fnm tp g k w path :
  let drained := buffers g (currbuffer g) in
  let total := wrap_size (currsize k + offset drained) in
  let g2 := set_buffer (set_currbuffer g (flip (currbuffer g)))
              (currbuffer g) (Logbuffer (data drained) 0) in
  fp k = Some path →
  0 ≤ offset drained < 2 ^ 64 →
  piecemeal rs (offset drained) = true →
  offset drained ≤ progress rs →
  ∃ w1 rs1,
    appended_to w w1 path (contents drained)
    ∧ iolog w1
      = iolog w ++ (if 0 <? offset drained then [IoFlush path] else [])
    ∧ drain_cycle rs ok fnm tp g k w
      = if cyclesz g <? total
        then
          match reopen_logfile ok (Some path) g2 w1 fnm with
          | Done (fp', g3, w2) =>
              Done (g3, Worker fp' 0 (wrap_uint (tp + 1)), w2, rs1)
          | Spinning => Spinning
          | Fault => Fault
          end
        else Done (g2, Worker (Some path) total (wrap_uint (tp + 1)), w1, rs1).
Proof.
  intros drained total g2 Hfp Hoff Hhon Hprog.
  destruct (flush_pending_io_total rs path w drained Hoff Hhon Hprog)
    as (w1 & rs1 & Hflush & Happ & Hlog).
  exists w1, rs1. split; [done|]. split; [done|].
  unfold drain_cycle. rewrite buffers_set_currbuffer, Hfp. fold drained.
  rewrite Hflush. simpl. fold g2 total. change (cyclesz g2) with (cyclesz g).
  destruct (cyclesz g <? total); [|done].
  by destruct (reopen_logfile ok (Some path) g2 w1 fnm) as [[[fp1 g3] w2]| |].
Qed.

(** The byte count a cycle leaves when it returns. *)
Lemma drain_cycle_count rs ok fnm tp g k w path g' k' w' rs' :
  let drained := buffers g (currbuffer g) in
  fp k = Some path →
  0 ≤ offset drained < 2 ^ 64 →
  piecemeal rs (offset drained) = true →
  drain_cycle rs ok fnm tp g k w = Done (g', k', w', rs') →
  currsize k'
  = if cyclesz g <? wrap_size (currsize k + offset drained) then 0
    else wrap_size (currsize k + offset drained).
Proof.
  intros drained Hfp Hoff Hhon. unfold drain_cycle.
  rewrite buffers_set_currbuffer, Hfp. fold drained.
  destruct (flush_pending_io rs (Some path) w drained)
    as [[[[ret lb1] w1] rs1]| |] eqn:Hflush; simpl; [|done..].
  apply flush_pending_io_pieces in Hflush as (-> & _); [|done..].
  change (cyclesz (set_buffer _ _ _)) with (cyclesz g).
  destruct (cyclesz g <? _).
  - destruct (reopen_logfile _ _ _ _ _) as [[[fp1 g3] w2]| |]; simpl;
      [|done..].
    by intros [= <- <- <- <-].
  - by intros [= <- <- <- <-].
Qed.

(** C2, as the code has it: draining a buffer. Against a backend that
    keeps the contract of [fwrite] and accepts less than [2^31] bytes per
    call, [flush_pending_io] returns as soon as the backend has accepted
    as many bytes as the buffer holds, however the writes were cut up
    and however many failed in between; when it returns, the whole
    contents of the buffer are at the end of the file, the buffer's
    offset is 0 and the result is the number of bytes drained, which the
    flusher thread adds to [currsize]; an empty buffer is left as it is
    and counts for 0 bytes. No error ends the drain: a write that
    reports an error or no byte is made again with the same request,
    and against a backend that only fails the drain does not return. *)
Theorem flush_pending_io_drains rs path w lb :
  0 ≤ offset lb < 2 ^ 64 →
  piecemeal rs (offset lb) = true →
  (offset lb ≤ progress rs →
   ∃ w' rs',
     flush_pending_io rs (Some path) w lb
     = Done (offset lb, Logbuffer (data lb) 0, w', rs')
     ∧ file_contents w' path = file_contents w path ++ contents lb)
  ∧ (∀ ret lb' w' rs',
       flush_pending_io rs (Some path) w lb = Done (ret, lb', w', rs') →
       ret = offset lb
       ∧ lb' = Logbuffer (data lb) 0
       ∧ appended_to w w' path (contents lb)
       ∧ (offset lb = 0 → lb' = lb ∧ w' = w ∧ rs' = rs))
  ∧ (∀ ok fnm tp g k,
       fp k = Some path →
       buffers g (currbuffer g) = lb →
       offset lb ≤ progress rs →
       wrap_size (currsize k + offset lb) ≤ cyclesz g →
       ∃ g' k' w' rs',
         drain_cycle rs ok fnm tp g k w = Done (g', k', w', rs')
         ∧ currsize k' = wrap_size (currsize k + offset lb)
         ∧ offset (buffers g' (currbuffer g)) = 0
         ∧ file_contents w' path = file_contents w path ++ contents lb)
  ∧ (∀ ok fnm tp g k g' k' w' rs',
       fp k = Some path →
       buffers g (currbuffer g) = lb →
       drain_cycle rs ok fnm tp g k w = Done (g', k', w', rs') →
       currsize k'
       = if cyclesz g <? wrap_size (currsize k + offset lb) then 0
         else wrap_size (currsize k + offset lb))
  ∧ (∀ r, - 2 ^ 31 ≤ r ≤ 0 → 0 < offset lb →
       flush_pending_io (r :: rs) (Some path) w lb
       = flush_pending_io rs (Some path) w lb)
  ∧ (∀ failures,
       Forall (λ r, - 2 ^ 31 ≤ r ≤ 0) failures → 0 < offset lb →
       flush_pending_io failures (Some path) w lb = Spinning).
Proof.
  intros Hoff Hhon. split_and!.
  - intros Hprog.
    destruct (flush_pending_io_total rs path w lb Hoff Hhon Hprog)
      as (w' & rs' & Hrun & (Hfile & _) & _).
    by exists w', rs'.
  - intros ret lb' w' rs' Hrun.
    by apply flush_pending_io_pieces in Hrun as (? & ? & ? & _ & ?).
  - intros ok fnm tp g k Hfp <- Hprog Hupto.
    destruct (drain_cycle_total rs ok fnm tp g k w path Hfp Hoff Hhon Hprog)
      as (w1 & rs1 & (Hfile & _) & _ & Hrun).
    destruct (Z.ltb_spec (cyclesz g)
                (wrap_size (currsize k
                            + offset (buffers g (currbuffer g)))));
      [lia|].
    eexists _, _, w1, rs1. split; [exact Hrun|]. split; [done|].
    split; [|done]. simpl.
    destruct (Z.eqb_spec (currbuffer g) 0) as [Hcur|Hcur];
      unfold buffers; simpl; rewrite ?Hcur; simpl; [done|].
    by destruct (Z.eqb_spec (currbuffer g) 0).
  - intros ok fnm tp g k g' k' w' rs' Hfp <- Hrun.
    by apply (drain_cycle_count _ _ _ _ _ _ _ path) in Hrun.
  - intros r Hr Hpos. unfold flush_pending_io.
    destruct (Z.ltb_spec 0 (offset lb)); [|lia].
    by rewrite write_loop_retry.
  - intros failures Hall Hpos. unfold flush_pending_io.
    destruct (Z.ltb_spec 0 (offset lb)); [|lia].
    by rewrite write_loop_stuck.
Qed.

Lemma flush_pending_io_drains_witness :
  (∃ w' rs',
     flush_pending_io stuttering_backend (Some first_file) first_file_world
       hello_buffer
     = Done (5, Logbuffer (data hello_buffer) 0, w', rs')
     ∧ file_contents w' first_file = bytes_of "hello")
  ∧ ∃ g' k' w' rs',
      drain_cycle stuttering_backend true "memcached" 5 roomy_globals
        (worker_at 0) first_file_world = Done (g', k', w', rs')
      ∧ currsize k' = 5.
Proof.
  assert (0 ≤ offset hello_buffer < 2 ^ 64) as Hoff by (by vm_compute).
  assert (piecemeal stuttering_backend (offset hello_buffer) = true) as Hhon
    by reflexivity.
  assert (offset hello_buffer ≤ progress stuttering_backend) as Hprog
    by (by vm_compute).
  destruct (flush_pending_io_drains stuttering_backend first_file
              first_file_world hello_buffer Hoff Hhon)
    as (Hreturns & _ & Hcount & _).
  split; [exact (Hreturns Hprog)|].
  destruct (Hcount true "memcached"%string 5 roomy_globals (worker_at 0))
    as (g' & k' & w' & rs' & Hrun & Hsize & _);
    [reflexivity|reflexivity|exact Hprog|by vm_compute|].
  by exists g', k', w', rs'.
Defined.

(** C2, as claimed, fails where the backend reports an error: no error
    is terminal. With a thousand failed writes in a row the drain of a
    five-byte buffer is still in its loop, has written nothing and has
    not reset the buffer; the same holds after any number of them. *)
Lemma drain_on_io_error_counterexample :
  Forall (λ r, r = 0) failing_backend
  ∧ length failing_backend = 1000%nat
  ∧ write_loop failing_backend first_file first_file_world
      (data hello_buffer) (offset hello_buffer) = None
  ∧ flush_pending_io failing_backend (Some first_file) first_file_world
      hello_buffer = Spinning.
Proof.
  split; [by apply Forall_replicate|]. split; [reflexivity|].
  split; by vm_compute.
Qed.

(** ** File names and [open_logfile] *)

Lemma list_ascii_of_string_app s t :
  list_ascii_of_string (s +:+ t)
  = list_ascii_of_string s ++ list_ascii_of_string t.
Proof. induction s as [|c s IH]; simpl; by rewrite ?IH. Qed.

Lemma string_app_inv_tail s1 s2 t : s1 +:+ t = s2 +:+ t → s1 = s2.
Proof.
  intros Heq. apply (f_equal list_ascii_of_string) in Heq.
  rewrite !list_ascii_of_string_app in Heq. apply app_inv_tail in Heq.
  rewrite <- (string_of_list_ascii_of_string s1),
    <- (string_of_list_ascii_of_string s2). by rewrite Heq.
Qed.

(** As long as the counter stays below [2^31], different sequence numbers
    give different names. *)
Lemma logfile_name_inj fnm ext i j :
  0 ≤ i < 2 ^ 31 → 0 ≤ j < 2 ^ 31 →
  logfile_name fnm i ext = logfile_name fnm j ext → i = j.
Proof.
  intros Hi Hj. unfold logfile_name. rewrite !to_int_small by lia.
  intros Heq. apply String.app_inj in Heq. apply String.app_inj in Heq.
  apply string_app_inv_tail in Heq. by apply (inj pretty) in Heq.
Qed.

Lemma string_length_app s t :
  String.length (s +:+ t) = (String.length s + String.length t)%nat.
Proof. induction s as [|c s IH]; [done|]. simpl. by rewrite IH. Qed.

(** A number below [10^k] is printed with at most [k] digits. *)
Lemma pretty_N_go_length k : ∀ x s,
  (x < 10 ^ N.of_nat k)%N →
  (String.length (pretty_N_go x s) ≤ k + String.length s)%nat.
Proof.
  induction k as [|k IH]; intros x s Hx.
  - assert (x = 0%N) as -> by (simpl in Hx; lia).
    rewrite pretty_N_go_0. lia.
  - destruct (decide (x = 0%N)) as [->|Hne]; [rewrite pretty_N_go_0; lia|].
    rewrite pretty_N_go_step by lia.
    etrans; [apply IH|simpl; lia].
    rewrite Nat2N.inj_succ, N.pow_succ_r' in Hx.
    apply N.Div0.div_lt_upper_bound. lia.
Qed.

Lemma pretty_length z :
  0 ≤ z < 2 ^ 31 → (String.length (pretty z) ≤ 10)%nat.
Proof.
  intros Hz. destruct z as [|x|x]; [simpl; lia| |lia].
  unfold pretty, pretty_Z, pretty, pretty_positive, pretty, pretty_N.
  case_decide; [done|].
  apply (pretty_N_go_length 10 (N.pos x) EmptyString).
  change (10 ^ N.of_nat 10)%N with 10000000000%N. lia.
Qed.

Lemma logfile_name_length fnm id ext :
  String.length (logfile_name fnm id ext)
  = (String.length fnm + String.length ext
     + String.length (pretty (to_int id)) + 2)%nat.
Proof. unfold logfile_name. rewrite !string_length_app. simpl. lia. Qed.

(** With room for ten digits, no name of a counter below [2^31]
    overruns [fname]. *)
Lemma logfile_name_fits fnm ext j :
  names_fit fnm ext → 0 ≤ j < 2 ^ 31 →
  (FNAME_SIZE <=? Z.of_nat (String.length (logfile_name fnm j ext))) = false.
Proof.
  unfold names_fit, FNAME_SIZE. intros Hfit Hj. apply Z.leb_gt.
  rewrite logfile_name_length, to_int_small by lia.
  pose proof (pretty_length j Hj) as Hdigits. lia.
Qed.

Section Probe.

Variables fnm ext : string.

(** A name that the loop does not look at makes no difference. *)
Lemma probe_remove fuel : ∀ (names : gset string) id x,
  (∀ j, id ≤ j < id + Z.of_nat fuel → logfile_name fnm j ext ≠ x) →
  0 ≤ id → id + Z.of_nat fuel ≤ 2 ^ 31 →
  probe fuel (names ∖ {[x]}) fnm ext id = probe fuel names fnm ext id.
Proof.
  induction fuel as [|fuel IH]; intros names id x Hx Hid Hfuel; [done|].
  simpl. rewrite wrap_uint_small by lia.
  destruct (FNAME_SIZE <=? _); [done|].
  assert (logfile_name fnm id ext ≠ x) as Hne by (apply Hx; lia).
  rewrite IH; [|intros; apply Hx; lia|lia|lia].
  apply (f_equal (λ b : bool, if b then _ else _)), bool_decide_ext.
  rewrite elem_of_difference, elem_of_singleton. tauto.
Qed.

(** With more probes than there are names on disk, the loop does not
    run out of probes: it stops at the first sequence number whose name
    is free, or before that at a name that overruns [fname]. *)
Lemma probe_finds fuel : ∀ (names : gset string) id,
  (size names < fuel)%nat →
  0 ≤ id → id + Z.of_nat fuel ≤ 2 ^ 31 →
  ∃ k, id ≤ k < id + Z.of_nat fuel
       ∧ (∀ j, id ≤ j < k → logfile_name fnm j ext ∈ names)
       ∧ (probe fuel names fnm ext id = Fault
          ∧ FNAME_SIZE ≤ Z.of_nat (String.length (logfile_name fnm k ext))
          ∨ probe fuel names fnm ext id
            = Done (logfile_name fnm k ext, k + 1)
            ∧ logfile_name fnm k ext ∉ names).
Proof.
  induction fuel as [|fuel IH]; intros names id Hsize Hid Hfuel; [lia|].
  simpl. rewrite wrap_uint_small by lia.
  destruct (Z.leb_spec FNAME_SIZE
              (Z.of_nat (String.length (logfile_name fnm id ext))))
    as [Hlong|Hshort].
  { exists id. split; [lia|]. split; [intros; lia|]. by left. }
  destruct (decide (logfile_name fnm id ext ∈ names)) as [Hin|Hout].
  - rewrite bool_decide_eq_true_2 by done.
    set (x := logfile_name fnm id ext) in *.
    assert (∀ j, id + 1 ≤ j < id + 1 + Z.of_nat fuel →
                 logfile_name fnm j ext ≠ x) as Hother.
    { intros j Hj Heq. apply logfile_name_inj in Heq; lia. }
    rewrite <- (probe_remove fuel names (id + 1) x) by (done || lia).
    destruct (IH (names ∖ {[x]}) (id + 1)) as (k & Hk & Hskip & Hrun);
      [|lia|lia|].
    { assert (size (names ∖ {[x]})
              = size names - size ({[x]} : gset string))%nat
        as Hsz by (by apply size_difference, singleton_subseteq_l).
      rewrite size_singleton in Hsz.
      assert (0 < size names)%nat; [|lia].
      destruct (decide (size names = 0%nat)) as [Hz|]; [|lia].
      apply size_empty_inv in Hz. rewrite Hz in Hin.
      by apply not_elem_of_empty in Hin. }
    exists k. split; [lia|]. split.
    + intros j Hj. destruct (decide (j = id)) as [->|]; [done|].
      assert (logfile_name fnm j ext ∈ names ∖ {[x]}) as Hj'
        by (apply Hskip; lia).
      by apply elem_of_difference in Hj' as [? _].
    + destruct Hrun as [Hfault|[Hdone Hfree]]; [by left|right].
      split; [done|].
      assert (logfile_name fnm k ext ≠ x) as Hne by (apply Hother; lia).
      intros Hink. apply Hfree, elem_of_difference.
      by rewrite elem_of_singleton.
  - rewrite bool_decide_eq_false_2 by done.
    exists id. split; [lia|]. split; [intros; lia|]. by right.
Qed.

End Probe.

(** One [open_logfile], as long as the counter cannot reach [2^31]: it
    either settles on the first free sequence number, or overruns
    [fname] on the way there. *)
Lemma open_logfile_cases ok g w fnm :
  0 ≤ next_id g →
  next_id g + Z.of_nat (S (size (dom (disk w)))) ≤ 2 ^ 31 →
  (open_logfile ok g w fnm = Fault ∧ ¬ names_fit fnm (extension g))
  ∨ ∃ res, open_logfile ok g w fnm = Done res
           ∧ opened_fresh fnm g ok w res
           ∧ sequence_number res
             ≤ next_id g + Z.of_nat (size (dom (disk w))).
Proof.
  intros Hid Hroom. unfold open_logfile.
  destruct (probe_finds fnm (extension g) (S (size (dom (disk w))))
              (dom (disk w)) (next_id g))
    as (k & Hk & Hskip & [[-> Hlong]|[-> Hfree]]); [lia|done|done| |].
  - left. split; [done|]. intros Hfit.
    pose proof (logfile_name_fits fnm (extension g) k Hfit) as Hshort.
    rewrite Z.leb_gt in Hshort. lia.
  - right. assert (k + 1 - 1 = k) as Hseq by lia.
    destruct ok; eexists; (split; [done|]);
      unfold opened_fresh, sequence_number; simpl; rewrite Hseq;
      (split; [repeat split; try done; lia|lia]).
Qed.

Lemma open_logfile_fresh ok g w fnm :
  0 ≤ next_id g →
  next_id g + Z.of_nat (S (size (dom (disk w)))) ≤ 2 ^ 31 →
  names_fit fnm (extension g) →
  ∃ res, open_logfile ok g w fnm = Done res
         ∧ opened_fresh fnm g ok w res
         ∧ sequence_number res ≤ next_id g + Z.of_nat (size (dom (disk w))).
Proof.
  intros Hid Hroom Hfit.
  by destruct (open_logfile_cases ok g w fnm Hid Hroom) as [[_ Hno]|Hres].
Qed.




(** ** Rotation *)

Lemma appended_to_size w w' path bs :
  appended_to w w' path bs →
  (size (dom (disk w')) ≤ S (size (dom (disk w))))%nat.
Proof.
  intros (_ & Hother & _ & _).
  assert (dom (disk w') ⊆ {[path]} ∪ dom (disk w)) as Hsub.
  { intros p Hp. apply elem_of_union.
    destruct (decide (p = path)) as [->|Hne];
      [left; by apply elem_of_singleton|].
    right. apply elem_of_dom. rewrite <- Hother by done. by apply elem_of_dom. }
  apply subseteq_size in Hsub. rewrite size_union_alt, size_singleton in Hsub.
  assert (size (dom (disk w) ∖ {[path]}) ≤ size (dom (disk w)))%nat
    by (apply subseteq_size, subseteq_difference_l; done).
  lia.
Qed.

(** A failed open leaves [NULL] in the caller's hands and a line on
    [stderr]; nothing else tells the thread. *)
Lemma open_logfile_failed g w fnm h g' w' :
  open_logfile false g w fnm = Done (h, g', w') →
  h = None ∧ run g' = run g ∧ disk w' = disk w
  ∧ stderr w' = stderr w ++ [Fprintf open_failed].
Proof.
  unfold open_logfile.
  destruct (probe _ _ _ _ _) as [[fname id']| |]; [|done..].
  by intros [= <- <- <-].
Qed.

(** The rotation step on an open file: the file is closed, then the
    first free name from [next_id] on is handed to [iops.open]. *)
Lemma reopen_logfile_fresh ok g w fnm path :
  0 ≤ next_id g →
  next_id g + Z.of_nat (size (dom (disk w))) + 1 ≤ 2 ^ 31 →
  names_fit fnm (extension g) →
  ∃ n w',
    let name := logfile_name fnm n (extension g) in
    reopen_logfile ok (Some path) g w fnm
    = Done (if ok then Some name else None, set_next_id g (n + 1), w')
    ∧ next_id g ≤ n
    ∧ (name ∉ dom (disk w))
    ∧ (∀ j, next_id g ≤ j < n →
            logfile_name fnm j (extension g) ∈ dom (disk w))
    ∧ iolog w' = iolog w ++ [IoClose path; IoOpen name ok]
    ∧ disk w' = (if ok then <[name := []]> (disk w) else disk w)
    ∧ stderr w' = stderr w ++ (if ok then [] else [Fprintf open_failed]).
Proof.
  intros Hid Hroom Hfit. unfold reopen_logfile, open_logfile, close_logfile.
  change (disk (log_io w (IoClose path))) with (disk w).
  destruct (probe_finds fnm (extension g) (S (size (dom (disk w))))
              (dom (disk w)) (next_id g))
    as (n & Hn & Hskip & [[_ Hlong]|[-> Hfree]]); [lia|done|lia| |].
  - pose proof (logfile_name_fits fnm (extension g) n Hfit) as Hshort.
    rewrite Z.leb_gt in Hshort. lia.
  - destruct ok; eexists n, _; (split; [reflexivity|]); simpl;
      rewrite <- ?app_assoc, ?app_nil_r; repeat split; try done; lia.
Qed.

(** C3, as the code has it: after a drain the file is rotated when the
    byte count has gone past [cyclesz], not when it has just reached it.
    The cycle returns once the backend has accepted the bytes of the
    buffer. Up to [cyclesz], the thread stays on its file and keeps the
    count: nothing is closed or opened. Past [cyclesz], the drained
    bytes are in the old file, that file is closed, the first sequence
    number whose name is free is taken for the next file, which is
    opened, and the count is reset to 0. When that open has succeeded,
    the bytes of the next drain go to the new file; the count is then
    their number if that is within [cyclesz], and 0 again if it is not,
    the file being rotated once more. *)
Theorem drain_cycle_rotates_past_cyclesz rs ok fnm tp g k w path :
  let drained := buffers g (currbuffer g) in
  let total := wrap_size (currsize k + offset drained) in
  let flushed := if 0 <? offset drained then [IoFlush path] else [] in
  fp k = Some path →
  0 ≤ offset drained < 2 ^ 64 →
  piecemeal rs (offset drained) = true →
  offset drained ≤ progress rs →
  0 ≤ next_id g →
  next_id g + Z.of_nat (size (dom (disk w))) + 2 ≤ 2 ^ 31 →
  names_fit fnm (extension g) →
  ∃ g' k' w' rs',
    drain_cycle rs ok fnm tp g k w = Done (g', k', w', rs')
    ∧ (total ≤ cyclesz g →
       fp k' = Some path ∧ currsize k' = total ∧ next_id g' = next_id g
       ∧ appended_to w w' path (contents drained)
       ∧ iolog w' = iolog w ++ flushed)
    ∧ (cyclesz g < total →
       ∃ n w1,
         let name := logfile_name fnm n (extension g) in
         appended_to w w1 path (contents drained)
         ∧ next_id g ≤ n ∧ next_id g' = n + 1
         ∧ (name ∉ dom (disk w1))
         ∧ (∀ j, next_id g ≤ j < n →
                 logfile_name fnm j (extension g) ∈ dom (disk w1))
         ∧ iolog w' = iolog w ++ flushed ++ [IoClose path; IoOpen name ok]
         ∧ disk w' = (if ok then <[name := []]> (disk w1) else disk w1)
         ∧ fp k' = (if ok then Some name else None)
         ∧ currsize k' = 0
         ∧ (∀ rs2 ok2 tp2 g2 w2,
              let later := buffers g2 (currbuffer g2) in
              ok = true →
              0 ≤ offset later < 2 ^ 64 →
              piecemeal rs2 (offset later) = true →
              offset later ≤ progress rs2 →
              offset later ≤ cyclesz g2 →
              ∃ g3 k3 w3 rs3,
                drain_cycle rs2 ok2 fnm tp2 g2 k' w2 = Done (g3, k3, w3, rs3)
                ∧ fp k3 = Some name
                ∧ currsize k3 = offset later
                ∧ appended_to w2 w3 name (contents later))
         ∧ (∀ rs2 ok2 tp2 g2 w2 g3 k3 w3 rs3,
              let later := buffers g2 (currbuffer g2) in
              ok = true →
              0 ≤ offset later < 2 ^ 64 →
              piecemeal rs2 (offset later) = true →
              cyclesz g2 < offset later →
              drain_cycle rs2 ok2 fnm tp2 g2 k' w2 = Done (g3, k3, w3, rs3) →
              currsize k3 = 0)).
Proof.
  intros drained total flushed Hfp Hoff Hhon Hprog Hid Hroom Hfit.
  destruct (drain_cycle_total rs ok fnm tp g k w path Hfp Hoff Hhon Hprog)
    as (w1 & rs1 & Happ & Hlog & Hrun).
  fold drained total flushed in Happ, Hlog, Hrun.
  destruct (Z.ltb_spec (cyclesz g) total) as [Hpast|Hupto].
  - pose proof (appended_to_size _ _ _ _ Happ) as Hsize.
    set (g2 := set_buffer _ _ _) in Hrun.
    destruct (reopen_logfile_fresh ok g2 w1 fnm path)
      as (n & w' & Hopen & Hn & Hfree & Hskip & Hlog' & Hdisk & _);
      [done|simpl; lia|done|].
    simpl in Hopen. rewrite Hopen in Hrun.
    eexists _, _, w', rs1. split; [exact Hrun|]. split; [lia|].
    intros _. exists n, w1. simpl.
    split; [done|]. split; [done|]. split; [done|]. split; [done|].
    split; [done|]. split; [by rewrite Hlog', Hlog, <- app_assoc|].
    split; [done|]. split; [done|]. split; [done|]. split.
    + intros rs2 ok2 tp2 g3 w2 Hok Hoff2 Hhon2 Hprog2 Hupto2. subst ok.
      destruct (drain_cycle_total rs2 ok2 fnm tp2 g3
                  (Worker (Some (logfile_name fnm n (extension g))) 0
                     (wrap_uint (tp + 1)))
                  w2 (logfile_name fnm n (extension g)) eq_refl
                  Hoff2 Hhon2 Hprog2)
        as (w3 & rs3 & Happ2 & _ & Hrun2).
      simpl in Hrun2. rewrite Z.add_0_l, wrap_size_small in Hrun2 by lia.
      destruct (Z.ltb_spec (cyclesz g3)
                  (offset (buffers g3 (currbuffer g3)))); [lia|].
      eexists _, _, w3, rs3. split; [exact Hrun2|].
      split; [done|]. split; [done|]. exact Happ2.
    + intros rs2 ok2 tp2 g3 w2 g4 k3 w3 rs3 Hok Hoff2 Hhon2 Hpast2 Hrun2.
      subst ok.
      apply (drain_cycle_count _ _ _ _ _ _ _
               (logfile_name fnm n (extension g))) in Hrun2; [|done..].
      simpl in Hrun2. rewrite Z.add_0_l, wrap_size_small in Hrun2 by lia.
      by destruct (Z.ltb_spec (cyclesz g3)
                     (offset (buffers g3 (currbuffer g3)))); [|lia].
  - eexists _, _, w1, rs1. split; [exact Hrun|]. split; [|lia].
    intros _. split; [done|]. split; [done|]. split; [done|]. by split.
Qed.

Lemma drain_cycle_rotates_past_cyclesz_witness :
  ∃ g' k' w' rs',
    drain_cycle [10] true "memcached" 5 (running_globals 10) (worker_at 91)
      first_file_world = Done (g', k', w', rs')
    ∧ currsize k' = 0
    ∧ ∃ n, fp k' = Some (logfile_name "memcached" n "txt")
           ∧ iolog w'
             = iolog first_file_world
                 ++ [IoFlush first_file; IoClose first_file;
                     IoOpen (logfile_name "memcached" n "txt") true].
Proof.
  destruct (drain_cycle_rotates_past_cyclesz [10] true "memcached" 5
              (running_globals 10) (worker_at 91) first_file_world first_file)
    as (g' & k' & w' & rs' & Hrun & _ & Hrotated);
    [reflexivity|by vm_compute|reflexivity|by vm_compute|by vm_compute
    |by vm_compute|by vm_compute|].
  exists g', k', w', rs'. split; [exact Hrun|].
  destruct Hrotated
    as (n & w1 & _ & _ & _ & _ & _ & Hlog & _ & Hfp & Hzero & _);
    [by vm_compute|].
  split; [exact Hzero|]. exists n. split; [exact Hfp|exact Hlog].
Defined.

(** C3, as claimed, fails where the count lands exactly on [cyclesz]: 90
    bytes written, 10 more drained, [cyclesz] 100. The thread stays on
    [memcached.0.txt], opens nothing and keeps the count at 100. *)
Lemma rotation_at_cyclesz_counterexample :
  wrap_size (currsize (worker_at 90)
             + offset (buffers (running_globals 10)
                         (currbuffer (running_globals 10))))
  = cyclesz (running_globals 10)
  ∧ match drain_cycle [10] true "memcached" 5 (running_globals 10)
            (worker_at 90) first_file_world with
    | Done (g', k', w', _) =>
        fp k' = Some first_file
        ∧ currsize k' = 100
        ∧ next_id g' = 1
        ∧ iolog w' = [IoOpen first_file true; IoFlush first_file]
    | _ => False
    end.
Proof. by vm_compute. Qed.

(** C9: what the rotation step does when the open fails. The failure is
    reported on [stderr], but the thread is not stopped: it keeps [NULL]
    as its file, [run] is untouched, and the next cycle that finds data
    in the buffer hands [NULL] to [iops.write]. Only the exit path
    checks [fp] before draining. *)
Theorem drain_cycle_after_failed_open rs fnm tp g k w path g' k' w' rs' :
  let drained := buffers g (currbuffer g) in
  fp k = Some path →
  0 ≤ offset drained ≤ INT_MAX →
  honest rs (offset drained) = true →
  cyclesz g < wrap_size (currsize k + offset drained) →
  drain_cycle rs false fnm tp g k w = Done (g', k', w', rs') →
  fp k' = None
  ∧ run g' = run g
  ∧ stderr w' = stderr w ++ [Fprintf open_failed]
  ∧ (∀ rs2 ok2 tp2 g2 w2,
       0 < offset (buffers g2 (currbuffer g2)) →
       drain_cycle rs2 ok2 fnm tp2 g2 k' w2 = Fault)
  ∧ (∀ rs2 g2 w2, worker_exit rs2 g2 k' w2 = Done (g2, w2, rs2)).
Proof.
  intros drained Hfp Hoff Hhon Hpast Hrun.
  apply (drain_cycle_done _ _ _ _ _ _ _ path) in Hrun as (w1 & Happ & Hcase);
    [|done..].
  fold drained in Hcase.
  destruct (Z.ltb_spec (cyclesz g) (wrap_size (currsize k + offset drained)))
    as [_|]; [|lia].
  destruct Hcase as [Hopen _]. unfold reopen_logfile in Hopen.
  apply open_logfile_failed in Hopen as (Hnull & Hrun' & _ & Herr).
  destruct Happ as (_ & _ & _ & Herr1). simpl in Herr. rewrite Herr1 in Herr.
  repeat split; try done.
  - intros rs2 ok2 tp2 g2 w2 Hdata. unfold drain_cycle, flush_pending_io.
    rewrite buffers_set_currbuffer, Hnull.
    by destruct (Z.ltb_spec 0 (offset (buffers g2 (currbuffer g2)))); [|lia].
  - intros rs2 g2 w2. unfold worker_exit. by rewrite Hnull.
Qed.

Lemma drain_cycle_after_failed_open_witness :
  ∃ g' k' w' rs',
    drain_cycle [10] false "memcached" 5 (running_globals 10) (worker_at 91)
      first_file_world = Done (g', k', w', rs')
    ∧ fp k' = None
    ∧ drain_cycle [6] true "memcached" 6 (running_globals 6) k'
        first_file_world = Fault.
Proof.
  destruct (drain_cycle [10] false "memcached" 5 (running_globals 10)
              (worker_at 91) first_file_world)
    as [[[[g' k'] w'] rs']| |] eqn:Hrun;
    [|vm_compute in Hrun; discriminate..].
  exists g', k', w', rs'. split; [done|].
  destruct (drain_cycle_after_failed_open [10] "memcached" 5
              (running_globals 10) (worker_at 91) first_file_world first_file
              g' k' w' rs') as (Hnull & _ & _ & Hnext & _);
    [reflexivity|by vm_compute|reflexivity|by vm_compute|exact Hrun|].
  split; [done|]. apply Hnext. by vm_compute.
Defined.

(** ** [logger_log] *)

Lemma slen_app s t : slen (s +:+ t) = slen s + slen t.
Proof.
  unfold slen. induction s as [|c s IH]; simpl String.length; [done|].
  rewrite !Nat2Z.inj_succ. simpl in IH. lia.
Qed.

Lemma slen_terminate_line line : slen (terminate_line line) ≤ slen line + 1.
Proof.
  unfold terminate_line. destruct (ends_with_newline line); [lia|].
  rewrite slen_app. change (slen nl) with 1. lia.
Qed.

Section Logging.

Variables (L : log_levels) (c : time_env) (wakeups : list globals).
Variables (g : globals) (w : world) (severity : Z) (msg : string).

(** A record is dropped exactly when prefix and message together leave no
    room for the terminating NUL in the 2048 bytes of [buffer]. *)
Lemma render_dropped_iff ts :
  slen (record_prefix L g severity ts) ≤ MAX_RECORD →
  render L g severity ts msg = Done None
  ↔ MAX_RECORD ≤ slen (record_prefix L g severity ts) + slen msg.
Proof.
  intros Hprefix. unfold render.
  destruct (Z.ltb_spec MAX_RECORD (slen (record_prefix L g severity ts)));
    [lia|].
  destruct (Z.ltb_spec (slen msg)
              (MAX_RECORD - slen (record_prefix L g severity ts)));
    split; intros; (done || lia).
Qed.

(** C5: the two thresholds. A call below both returns at once: the clock
    is not read, nothing is rendered, nothing is printed. A record at or
    above [output_level] is written to [stderr] and flushed before
    anything is done about the buffer, also when it is below
    [current_log_level]; only the warnings of a caller waiting for room
    can follow it. A call below [current_log_level] leaves the buffers
    as they are and never waits. *)
Theorem logger_log_thresholds :
  (severity < current_log_level g → severity < output_level g →
   logger_log L c wakeups g w severity msg = Returned g w)
  ∧ (∀ now buffer,
       output_level g ≤ severity →
       gettimeofday c = Some now →
       render L g severity (timestamp c now) msg = Done (Some buffer) →
       ∃ w' n,
         (logger_log L c wakeups g w severity msg = Blocked w'
          ∨ ∃ g', logger_log L c wakeups g w severity msg = Returned g' w')
         ∧ stderr w'
           = stderr w ++ [Fputs buffer; Fflush]
               ++ replicate n (Fprintf space_warning)
         ∧ (severity < current_log_level g →
            logger_log L c wakeups g w severity msg = Returned g w'
            ∧ n = 0%nat))
  ∧ (severity < current_log_level g →
     match logger_log L c wakeups g w severity msg with
     | Returned g' _ => g' = g
     | Blocked _ => False
     | Undefined => True
     end).
Proof.
  split; [|split].
  - intros Hcur Hout. unfold logger_log.
    destruct (Z.leb_spec (current_log_level g) severity); [lia|].
    by destruct (Z.leb_spec (output_level g) severity); [lia|].
  - intros now buffer Hout Htime Hrender. unfold logger_log.
    destruct (Z.leb_spec (output_level g) severity) as [_|]; [|lia].
    rewrite orb_true_r, Htime, Hrender.
    destruct (Z.leb_spec (current_log_level g) severity) as [Hcur|Hcur].
    + pose proof (add_log_entry_warnings wakeups g
                    (to_stderr w [Fputs buffer; Fflush]) (bytes_of buffer)
                    (slen buffer)) as Hwarn.
      destruct (add_log_entry _ _ _ _ _) as [g1 w1|w1|]; [| |done];
        destruct Hwarn as (_ & _ & Herr);
        exists w1, (waits wakeups g (slen buffer));
        (split; [eauto|]); (split; [|lia]);
        rewrite Herr; simpl; by rewrite <- app_assoc.
    + exists (to_stderr w [Fputs buffer; Fflush]), 0%nat.
      split; [by eauto|]. split; [by rewrite app_nil_r|done].
  - intros Hcur. unfold logger_log.
    destruct (Z.leb_spec (current_log_level g) severity); [lia|]. simpl.
    destruct (output_level g <=? severity); [|done].
    destruct (gettimeofday c); [|done].
    by destruct (render _ _ _ _ _) as [[?|]| |].
Qed.

(** C7: an oversized record. When the call gets as far as rendering and
    the rendered record (timestamp, severity tag, message, final
    newline) would be longer than the 2047 characters [buffer] has room
    for, then, as long as timestamp and tag fit [buffer] themselves,
    the call returns with the statics untouched and exactly one line,
    the diagnostic, added to [stderr]; it does nothing to the disk or
    the backend and never waits. When timestamp and tag alone are
    longer than that, the length check is not reached in one piece:
    [avail -= prefixlen] wraps around and [vsnprintf] is handed an
    address past the end of [buffer]. *)
Theorem logger_log_drops_oversized now :
  current_log_level g ≤ severity ∨ output_level g ≤ severity →
  gettimeofday c = Some now →
  MAX_RECORD < slen (rendered_record L g severity (timestamp c now) msg) →
  (slen (record_prefix L g severity (timestamp c now)) ≤ MAX_RECORD →
   ∃ w',
     logger_log L c wakeups g w severity msg = Returned g w'
     ∧ stderr w' = stderr w ++ [Fprintf too_big]
     ∧ disk w' = disk w ∧ iolog w' = iolog w)
  ∧ (MAX_RECORD < slen (record_prefix L g severity (timestamp c now)) →
     logger_log L c wakeups g w severity msg = Undefined).
Proof.
  intros Hgate Htime Hbig. unfold logger_log. rewrite Htime.
  assert ((current_log_level g <=? severity) || (output_level g <=? severity)
          = true) as ->.
  { apply orb_true_iff. rewrite !Z.leb_le. tauto. }
  split.
  - intros Hprefix.
    assert (render L g severity (timestamp c now) msg = Done None) as ->.
    { apply render_dropped_iff; [done|].
      pose proof (slen_terminate_line
                    (record_prefix L g severity (timestamp c now) +:+ msg))
        as Hlen.
      rewrite slen_app in Hlen. unfold rendered_record in Hbig. lia. }
    by eexists.
  - intros Hprefix. unfold render.
    by destruct (Z.ltb_spec MAX_RECORD
                   (slen (record_prefix L g severity (timestamp c now))));
      [|lia].
Qed.

(** C10: the clock cannot be read. Whatever the severity, the call
    returns with the statics untouched, so nothing is appended, and
    does nothing to the disk or the backend; a call that reads the
    clock, that is every call at or above one of the thresholds, adds
    one line to [stderr], the report of the failure, and no record; a
    call below both thresholds adds nothing. *)
Theorem logger_log_clock_failure :
  gettimeofday c = None →
  ∃ w',
    logger_log L c wakeups g w severity msg = Returned g w'
    ∧ disk w' = disk w ∧ iolog w' = iolog w
    ∧ (current_log_level g ≤ severity ∨ output_level g ≤ severity →
       stderr w'
       = stderr w
           ++ [Fprintf ("gettimeofday failed: "%string
                          +:+ strerror_errno c +:+ nl)])
    ∧ (severity < current_log_level g → severity < output_level g →
       stderr w' = stderr w).
Proof.
  intros Htime. unfold logger_log. rewrite Htime.
  destruct (Z.leb_spec (current_log_level g) severity);
    destruct (Z.leb_spec (output_level g) severity); simpl;
    eexists; (split; [reflexivity|]); simpl;
    repeat split; try done; try lia; intros [?|?]; lia.
Qed.

End Logging.

Lemma logger_log_thresholds_witness :
  ∃ w' n,
    (logger_log memcached_levels working_clock [] (small_globals 0)
       empty_world 3 "hello" = Blocked w'
     ∨ ∃ g', logger_log memcached_levels working_clock [] (small_globals 0)
               empty_world 3 "hello" = Returned g' w')
    ∧ stderr w'
      = stderr empty_world
          ++ [Fputs ("Tue Nov 14 22:13:20.000042 UTC 3: hello"%string +:+ nl);
              Fflush]
          ++ replicate n (Fprintf space_warning).
Proof.
  destruct (proj1 (proj2 (logger_log_thresholds memcached_levels
                            working_clock [] (small_globals 0) empty_world 3
                            "hello"))
              (Timeval 1700000000 42)
              ("Tue Nov 14 22:13:20.000042 UTC 3: hello"%string +:+ nl))
    as (w' & n & Hres & Herr & _); [by vm_compute|reflexivity|reflexivity|].
  by exists w', n.
Defined.

Lemma logger_log_drops_oversized_witness :
  (∃ w',
     logger_log memcached_levels working_clock [] (small_globals 0)
       empty_world 3 long_message = Returned (small_globals 0) w'
     ∧ stderr w' = [Fprintf too_big])
  ∧ logger_log memcached_levels long_zone_clock [] (small_globals 0)
      empty_world 3 "hello" = Undefined.
Proof.
  split.
  - destruct (logger_log_drops_oversized memcached_levels working_clock []
                (small_globals 0) empty_world 3 long_message
                (Timeval 1700000000 42))
      as [Hdrop _]; [left; by vm_compute|reflexivity|by vm_compute|].
    destruct Hdrop as (w' & Hrun & Herr & _); [by vm_compute|].
    by exists w'.
  - destruct (logger_log_drops_oversized memcached_levels long_zone_clock []
                (small_globals 0) empty_world 3 "hello"
                (Timeval 1700000000 42))
      as [_ Hover]; [left; by vm_compute|reflexivity|by vm_compute|].
    apply Hover. by vm_compute.
Defined.

Lemma logger_log_clock_failure_witness :
  ∃ w',
    logger_log memcached_levels broken_clock [] (small_globals 0) empty_world
      3 "hello" = Returned (small_globals 0) w'
    ∧ stderr w'
      = [Fprintf ("gettimeofday failed: Invalid argument"%string +:+ nl)].
Proof.
  destruct (logger_log_clock_failure memcached_levels broken_clock []
              (small_globals 0) empty_world 3 "hello" eq_refl)
    as (w' & Hrun & _ & _ & Herr & _).
  exists w'. split; [exact Hrun|]. apply Herr. left. by vm_compute.
Defined.

(** ** Start-up *)

(** [strcasecmp] sees a string through its lower-case form. *)
Lemma tolower_idemp x : tolower (tolower x) = tolower x.
Proof. by destruct x as [[] [] [] [] [] [] [] []]. Qed.

Lemma lowercase_idemp s : lowercase (lowercase s) = lowercase s.
Proof.
  induction s as [|x s IH]; [done|]. simpl. by rewrite tolower_idemp, IH.
Qed.

Lemma strcasecmp_eq_lowercase a : ∀ b,
  strcasecmp_eq a b = true ↔ lowercase a = lowercase b.
Proof.
  induction a as [|x a IH]; intros [|y b]; simpl; try done.
  rewrite andb_true_iff, bool_decide_eq_true, IH.
  split; [by intros [-> ->]|by intros [= -> ->]].
Qed.

Lemma strcasecmp_eq_lower_r a b :
  strcasecmp_eq a (lowercase b) = strcasecmp_eq a b.
Proof.
  apply eq_true_iff_eq. rewrite !strcasecmp_eq_lowercase.
  by rewrite lowercase_idemp.
Qed.

Section Initialize.

Variables (L : log_levels) (e : init_env) (api : server_api).
Variables (config : string) (items : config_items).
Variables (g : globals) (w : world).

Hypothesis has_api : get_server_api e = Some api.
Hypothesis parsed : parse_config api config = (true, items).

(** C6, as the code has it: the [loglevel] key sets [output_level], the
    threshold for mirroring to [stderr]; its value is one of the four
    level names, in any case of letters, and an unknown name is fatal. The
    threshold for the log file, [current_log_level], is not set from the
    configuration: it is the server's log level, read at the end of a
    successful start-up and again by [on_log_level] whenever the server
    announces a change, which leaves [output_level] as configured. *)
Theorem loglevel_configures_output_level loglevel code g' w' t :
  cfg_loglevel items = Some loglevel →
  memcached_extensions_initialize L e (Some config) g w = (code, g', w', t) →
  (parse_loglevel L loglevel = None → code = EXTENSION_FATAL)
  ∧ (∀ l, parse_loglevel L loglevel = Some l →
       output_level g' = l
       ∧ (code = EXTENSION_SUCCESS → current_log_level g' = get_level api)
       ∧ (current_log_level g' = current_log_level g
          ∨ current_log_level g' = get_level api)
       ∧ ∀ sapi,
           output_level (on_log_level sapi g') = l
           ∧ ∀ api', sapi = Some api' →
               current_log_level (on_log_level sapi g') = get_level api')
  ∧ parse_loglevel L "warning" = Some (EXTENSION_LOG_WARNING L)
  ∧ parse_loglevel L "info" = Some (EXTENSION_LOG_INFO L)
  ∧ parse_loglevel L "debug" = Some (EXTENSION_LOG_DEBUG L)
  ∧ parse_loglevel L "detail" = Some (EXTENSION_LOG_DETAIL L)
  ∧ ∀ name, parse_loglevel L (lowercase name) = parse_loglevel L name.
Proof.
  intros Hkey Hinit.
  unfold memcached_extensions_initialize, read_config, start_logger in Hinit.
  rewrite has_api, parsed, Hkey in Hinit. simpl in Hinit.
  split; [|split; [|split_and!; try done;
                    intros name; unfold parse_loglevel;
                    by rewrite !strcasecmp_eq_lower_r]].
  - intros Hbad. rewrite Hbad in Hinit. by injection Hinit as <- _ _ _.
  - intros l Hl. rewrite Hl in Hinit.
    assert (∀ sapi g1, output_level g1 = l →
              output_level (on_log_level sapi g1) = l
              ∧ ∀ api', sapi = Some api' →
                  current_log_level (on_log_level sapi g1) = get_level api')
      as Hnotify.
    { intros [api1|] g1 Hg1; simpl; split; try done. by intros ? [= <-]. }
    repeat case_match; simplify_eq; simpl;
      (split; [done|]); (split; [done|]); (split; [by auto|]);
      intros sapi; by apply Hnotify.
Qed.

(** With memory, no negative result from [pthread_create] and a
    successful registration, the last part of start-up succeeds; it does
    not look at [buffersz] except to pass it to [malloc]. *)
Lemma start_logger_succeeds g1 w1 fname0 :
  (∀ n size, is_Some (malloc e n size)) →
  is_Some fname0 ∨ strdup_ok e = true →
  0 ≤ pthread_create e →
  register_extension api = true →
  ∃ g' t,
    start_logger e api g1 w1 fname0 = (EXTENSION_SUCCESS, g', w1, t)
    ∧ (is_Some t ↔ pthread_create e = 0)
    ∧ buffersz g' = buffersz g1.
Proof.
  intros Halloc Hname Hthread Hreg. unfold start_logger.
  destruct (Halloc 0%nat (buffersz g1)) as [d0 ->].
  destruct (Halloc 1%nat (buffersz g1)) as [d1 ->].
  destruct (Z.ltb_spec (pthread_create e) 0); [lia|]. rewrite Hreg.
  assert (∀ fnm : string,
            is_Some (if pthread_create e =? 0 then Some fnm else None)
            ↔ pthread_create e = 0) as Hthread'.
  { intros fnm. destruct (Z.eqb_spec (pthread_create e) 0).
    - split; [done|by eexists].
    - split; [by intros [? [=]]|done]. }
  destruct fname0 as [f|]; [by eexists _, _|].
  destruct Hname as [Hsome|Hdup]; [by destruct Hsome|].
  rewrite Hdup. by eexists _, _.
Qed.

(** A configuration that parses and names a known log level, or none,
    gets through the configuration block, with [buffersz] as given. *)
Lemma read_config_accepts :
  match cfg_loglevel items with
  | Some loglevel => is_Some (parse_loglevel L loglevel)
  | None => True
  end →
  ∃ g1,
    read_config L e api config g w = inl (g1, w, cfg_filename items)
    ∧ buffersz g1 = default (buffersz g) (cfg_buffersize items).
Proof.
  intros Hlevel. unfold read_config. rewrite parsed. simpl.
  destruct (cfg_loglevel items) as [loglevel|];
    [destruct Hlevel as [l ->]|];
    (eexists; split; [reflexivity|]); by destruct (_ && _).
Qed.

(** An unknown log level ends start-up in the configuration block, with
    a line on [stderr]. *)
Lemma read_config_unknown loglevel :
  cfg_loglevel items = Some loglevel →
  parse_loglevel L loglevel = None →
  ∃ g1,
    read_config L e api config g w
    = inr (g1, to_stderr w [Fprintf (unknown_loglevel loglevel)]).
Proof.
  intros Hkey Hbad. unfold read_config. rewrite parsed, Hkey, Hbad. simpl.
  by eexists.
Qed.

End Initialize.

(** C8, as the code has it: start-up does not compare [buffersize] with
    the size of a record. The configurations it rejects are those that
    do not parse and those with an unknown log level. Whatever the
    buffer size, when the configuration parses, the log level is a known
    one, the allocations succeed, [pthread_create] returns no negative
    number and the extension is registered, the result is
    [EXTENSION_SUCCESS], nothing is printed and [buffersz] is the
    configured value; a record that is not smaller than the buffer then
    finds [add_log_entry] waiting, whatever the buffers hold. *)
Theorem initialize_accepts_any_buffersize L e api config ok items g w :
  get_server_api e = Some api →
  parse_config api config = (ok, items) →
  (ok = false →
   ∃ g' w',
     memcached_extensions_initialize L e (Some config) g w
     = (EXTENSION_FATAL, g', w', None))
  ∧ (∀ loglevel,
       ok = true →
       cfg_loglevel items = Some loglevel →
       parse_loglevel L loglevel = None →
       ∃ g' w',
         memcached_extensions_initialize L e (Some config) g w
         = (EXTENSION_FATAL, g', w', None)
         ∧ stderr w' = stderr w ++ [Fprintf (unknown_loglevel loglevel)])
  ∧ (ok = true →
     match cfg_loglevel items with
     | Some loglevel => is_Some (parse_loglevel L loglevel)
     | None => True
     end →
     (∀ n size, is_Some (malloc e n size)) →
     is_Some (cfg_filename items) ∨ strdup_ok e = true →
     0 ≤ pthread_create e →
     register_extension api = true →
     ∃ g' w' t,
       memcached_extensions_initialize L e (Some config) g w
       = (EXTENSION_SUCCESS, g', w', t)
       ∧ (is_Some t ↔ pthread_create e = 0)
       ∧ buffersz g' = default (buffersz g) (cfg_buffersize items)
       ∧ stderr w' = stderr w
       ∧ ∀ g'' size,
           buffersz g'' = buffersz g' →
           0 ≤ offset (buffers g'' (currbuffer g'')) →
           0 ≤ size →
           buffersz g'' ≤ size →
           offset (buffers g'' (currbuffer g'')) + size < 2 ^ 64 →
           must_wait g'' size = true).
Proof.
  intros Hapi Hparse. unfold memcached_extensions_initialize.
  rewrite Hapi. split; [|split].
  - intros ->. unfold read_config. rewrite Hparse. simpl. by eexists _, _.
  - intros loglevel -> Hkey Hbad.
    destruct (read_config_unknown L e api config items g w Hparse loglevel
                Hkey Hbad) as [g1 ->].
    by eexists _, _.
  - intros -> Hlevel Halloc Hname Hthread Hreg.
    destruct (read_config_accepts L e api config items g w Hparse Hlevel)
      as (g1 & -> & Hsz).
    destruct (start_logger_succeeds e api g1 w (cfg_filename items))
      as (g' & t & -> & Ht & Hb); [done..|].
    exists g', w, t. rewrite Hb, Hsz. repeat split; try done; try apply Ht.
    intros g'' size _ Hoff Hsize Hsmall Hno. apply must_wait_iff; lia.
Qed.

Lemma loglevel_configures_output_level_witness :
  ∃ code g' w' t,
    memcached_extensions_initialize memcached_levels generous_env
      (Some debug_config) (initial_globals memcached_levels) empty_world
    = (code, g', w', t)
    ∧ output_level g' = EXTENSION_LOG_DEBUG memcached_levels
    ∧ (code = EXTENSION_SUCCESS →
       current_log_level g' = get_level warning_server).
Proof.
  destruct (memcached_extensions_initialize memcached_levels generous_env
              (Some debug_config) (initial_globals memcached_levels)
              empty_world) as [[[code g'] w'] t] eqn:Hinit.
  exists code, g', w', t. split; [done|].
  destruct (loglevel_configures_output_level memcached_levels generous_env
              warning_server debug_config debug_items
              (initial_globals memcached_levels) empty_world eq_refl eq_refl
              "debug" code g' w' t eq_refl Hinit) as (_ & Hlevel & _).
  destruct (Hlevel _ eq_refl) as (Hout & Hcur & _). by split.
Defined.

(** C6, as claimed, fails on a configuration with [loglevel=debug] given
    to a server whose own log level is WARNING: start-up succeeds, the
    threshold for the log file is WARNING, not DEBUG, and DEBUG is where
    the threshold for [stderr] has gone. *)
Lemma loglevel_counterexample :
  match memcached_extensions_initialize memcached_levels generous_env
          (Some debug_config) (initial_globals memcached_levels)
          empty_world with
  | (code, g', _, _) =>
      code = EXTENSION_SUCCESS
      ∧ current_log_level g' = EXTENSION_LOG_WARNING memcached_levels
      ∧ current_log_level g' ≠ EXTENSION_LOG_DEBUG memcached_levels
      ∧ output_level g' = EXTENSION_LOG_DEBUG memcached_levels
  end.
Proof. by vm_compute. Qed.

Lemma initialize_accepts_any_buffersize_witness :
  (∃ g' w' t,
     memcached_extensions_initialize memcached_levels generous_env
       (Some debug_config) (initial_globals memcached_levels) empty_world
     = (EXTENSION_SUCCESS, g', w', t)
     ∧ is_Some t
     ∧ buffersz g' = 16)
  ∧ ∃ g' w',
      memcached_extensions_initialize memcached_levels garbled_env
        (Some debug_config) (initial_globals memcached_levels) empty_world
      = (EXTENSION_FATAL, g', w', None).
Proof.
  split.
  - destruct (initialize_accepts_any_buffersize memcached_levels generous_env
                warning_server debug_config true debug_items
                (initial_globals memcached_levels) empty_world eq_refl
                eq_refl) as (_ & _ & Hstart).
    destruct Hstart as (g' & w' & t & Hinit & Ht & Hsize & _).
    + reflexivity.
    + simpl. by eexists.
    + intros n size. by eexists.
    + by right.
    + by vm_compute.
    + reflexivity.
    + exists g', w', t. split; [exact Hinit|]. split; [by apply Ht|].
      exact Hsize.
  - destruct (initialize_accepts_any_buffersize memcached_levels garbled_env
                garbled_server debug_config false debug_items
                (initial_globals memcached_levels) empty_world eq_refl
                eq_refl) as (Hreject & _).
    exact (Hreject eq_refl).
Defined.

(** C8, as claimed, fails on a configuration with [buffersize=16], far
    below the 2047 characters a record can have: start-up returns
    [EXTENSION_SUCCESS] with 16-byte buffers and prints nothing, and a
    record of 20 bytes then has to wait although the buffer is empty. *)
Lemma small_buffer_counterexample :
  match memcached_extensions_initialize memcached_levels generous_env
          (Some debug_config) (initial_globals memcached_levels)
          empty_world with
  | (code, g', w', _) =>
      code = EXTENSION_SUCCESS
      ∧ buffersz g' = 16
      ∧ buffersz g' < MAX_RECORD
      ∧ stderr w' = []
      ∧ offset (buffers g' (currbuffer g')) = 0
      ∧ must_wait g' 20 = true
  end.
Proof. by vm_compute. Qed.

(** * Further properties *)

(** ** The buffers *)

Lemma buffers_set_buffer_same g i lb : buffers (set_buffer g i lb) i = lb.
Proof. unfold buffers, set_buffer. simpl. by destruct (i =? 0). Qed.

Lemma buffers_set_buffer_flip g i lb :
  buffers (set_buffer g i lb) (flip i) = buffers g (flip i).
Proof.
  unfold buffers, set_buffer, flip. simpl. by destruct (i =? 0).
Qed.

Lemma buffers_ok_active g :
  buffers_ok g → buffer_ok (buffersz g) (buffers g (currbuffer g)).
Proof. intros (_ & _ & H0 & H1). unfold buffers. by destruct (_ =? 0). Qed.

Lemma buffers_ok_set_buffer g i lb :
  buffers_ok g → buffer_ok (buffersz g) lb → buffers_ok (set_buffer g i lb).
Proof.
  intros (Hsz & Hcur & H0 & H1) Hlb. unfold buffers_ok, set_buffer. simpl.
  by destruct (i =? 0).
Qed.

(** What the copy does to a well-formed buffer with room. *)
Lemma append_record_fits g msg :
  let size := Z.of_nat (length msg) in
  let active := buffers g (currbuffer g) in
  let g' := (append_record g msg size).1 in
  buffers_ok g →
  offset active + size < 2 ^ 64 →
  must_wait g size = false →
  currbuffer g' = currbuffer g
  ∧ buffersz g' = buffersz g
  ∧ offset (buffers g' (currbuffer g)) = offset active + size
  ∧ contents (buffers g' (currbuffer g)) = contents active ++ msg
  ∧ buffers g' (flip (currbuffer g)) = buffers g (flip (currbuffer g))
  ∧ buffers_ok g'.
Proof.
  intros size active g' Hok Hno Hroom.
  pose proof (buffers_ok_active g Hok) as [Hoff Hlen].
  fold active in Hoff, Hlen.
  pose proof Hok as (Hsz & _).
  apply must_wait_false_iff in Hroom; fold active; [|lia..].
  fold active in Hroom.
  unfold g', append_record. fold active. simpl.
  rewrite buffers_set_buffer_same, buffers_set_buffer_flip.
  rewrite wrap_size_small by lia.
  split; [done|]. split; [done|]. split; [done|]. split; [|split; [done|]].
  - unfold contents. simpl.
    replace (Z.to_nat (offset active + size))
      with (Z.to_nat (offset active) + length msg)%nat by lia.
    apply memcpy_at_prefix; lia.
  - apply buffers_ok_set_buffer; [done|]. split; simpl; [lia|].
    rewrite memcpy_at_length; lia.
Qed.

(** X1: an append that finds room. The record is copied right behind
    what the active buffer already holds, inside the segment; the offset
    advances by the size of the record and stays below [buffersz]; the
    other buffer is not touched and nothing is printed. *)
Theorem add_log_entry_appends wakeups g w msg :
  let size := Z.of_nat (length msg) in
  let active := buffers g (currbuffer g) in
  buffers_ok g →
  offset active + size < 2 ^ 64 →
  must_wait g size = false →
  ∃ g',
    add_log_entry wakeups g w msg size = Returned g' w
    ∧ currbuffer g' = currbuffer g
    ∧ contents (buffers g' (currbuffer g)) = contents active ++ msg
    ∧ offset (buffers g' (currbuffer g)) = offset active + size
    ∧ offset (buffers g' (currbuffer g)) < buffersz g
    ∧ length (data (buffers g' (currbuffer g))) = length (data active)
    ∧ buffers g' (flip (currbuffer g)) = buffers g (flip (currbuffer g)).
Proof.
  intros size active Hok Hno Hroom.
  destruct (append_record_fits g msg Hok Hno Hroom)
    as (Hcur & Hsz & Hoff & Hcont & Hother & Hok').
  exists (append_record g msg size).1.
  split; [by rewrite add_log_entry_room|].
  pose proof (buffers_ok_active _ Hok') as [Hoff' Hlen'].
  pose proof (buffers_ok_active _ Hok) as [_ Hlen].
  rewrite Hcur, Hsz in Hoff', Hlen'. unfold size, active in *.
  split; [done|]. split; [done|]. split; [done|]. split; [lia|].
  split; [lia|done].
Qed.

Lemma add_log_entry_appends_witness :
  ∃ g',
    add_log_entry [] roomy_globals empty_world (bytes_of "hi") 2
    = Returned g' empty_world
    ∧ contents (buffers g' 0) = bytes_of "hellohi".
Proof.
  destruct (add_log_entry_appends [] roomy_globals empty_world
              (bytes_of "hi")) as (g' & Hrun & _ & Hcont & _).
  - repeat split; simpl; (lia || by left).
  - by vm_compute.
  - reflexivity.
  - by exists g'.
Defined.

(** X2: two appends in a row. When both records find room, the buffer
    holds them in the order of the calls, behind what it held before. *)
Theorem add_log_entry_in_order ws1 ws2 g w msg1 msg2 g1 g2 w1 w2 :
  buffers_ok g →
  offset (buffers g (currbuffer g)) + Z.of_nat (length msg1)
    + Z.of_nat (length msg2) < 2 ^ 64 →
  must_wait g (Z.of_nat (length msg1)) = false →
  add_log_entry ws1 g w msg1 (Z.of_nat (length msg1)) = Returned g1 w1 →
  must_wait g1 (Z.of_nat (length msg2)) = false →
  add_log_entry ws2 g1 w1 msg2 (Z.of_nat (length msg2)) = Returned g2 w2 →
  contents (buffers g2 (currbuffer g2))
  = contents (buffers g (currbuffer g)) ++ msg1 ++ msg2
  ∧ w2 = w.
Proof.
  intros Hok Hno Hroom1 Hrun1 Hroom2 Hrun2.
  assert (g1 = (append_record g msg1 (Z.of_nat (length msg1))).1 ∧ w1 = w)
    as [-> ->].
  { rewrite add_log_entry_room in Hrun1 by done. by injection Hrun1. }
  assert (g2 = (append_record (append_record g msg1 (Z.of_nat (length msg1))).1
                  msg2 (Z.of_nat (length msg2))).1 ∧ w2 = w) as [-> ->].
  { rewrite add_log_entry_room in Hrun2 by done. by injection Hrun2. }
  destruct (append_record_fits g msg1 Hok ltac:(lia) Hroom1)
    as (Hcur1 & _ & Hoff1 & Hcont1 & _ & Hok1).
  destruct (append_record_fits _ msg2 Hok1) as (Hcur2 & _ & _ & Hcont2 & _);
    [|done|].
  { rewrite Hcur1, Hoff1. lia. }
  split; [|done].
  by rewrite Hcur2, Hcont2, Hcur1, Hcont1, <- app_assoc.
Qed.

Lemma add_log_entry_in_order_witness :
  contents
    (buffers
       (append_record (append_record roomy_globals (bytes_of "ab") 2).1
          (bytes_of "cd") 2).1 0)
  = contents (buffers roomy_globals 0) ++ bytes_of "ab" ++ bytes_of "cd"
  ∧ empty_world = empty_world.
Proof.
  apply (add_log_entry_in_order [] [] roomy_globals empty_world
           (bytes_of "ab") (bytes_of "cd")
           (append_record roomy_globals (bytes_of "ab") 2).1
           (append_record (append_record roomy_globals (bytes_of "ab") 2).1
              (bytes_of "cd") 2).1
           empty_world empty_world).
  - repeat split; simpl; (lia || by left).
  - by vm_compute.
  - reflexivity.
  - reflexivity.
  - reflexivity.
  - reflexivity.
Defined.

(** Where an append ends up: the wake-ups before the first state with
    room are waited through, one warning each. *)
Lemma add_log_entry_decompose wakeups : ∀ g w msg size,
  match add_log_entry wakeups g w msg size with
  | Blocked w' =>
      Forall (λ s, must_wait s size = true) (g :: wakeups)
      ∧ stderr w'
        = stderr w ++ replicate (S (length wakeups)) (Fprintf space_warning)
  | Returned g' w' =>
      ∃ pre s post,
        g :: wakeups = pre ++ s :: post
        ∧ Forall (λ s, must_wait s size = true) pre
        ∧ must_wait s size = false
        ∧ g' = (append_record s msg size).1
        ∧ stderr w'
          = stderr w ++ replicate (length pre) (Fprintf space_warning)
  | Undefined => False
  end.
Proof.
  induction wakeups as [|g1 later IH]; intros g w msg size; simpl.
  - destruct (must_wait g size) eqn:Hwait; simpl.
    + split; [by repeat constructor|done].
    + exists [], g, []. by rewrite app_nil_r.
  - destruct (must_wait g size) eqn:Hwait; simpl.
    + specialize (IH g1 (to_stderr w [Fprintf space_warning]) msg size).
      destruct (add_log_entry later g1 _ msg size) as [g' w'|w'|]; [| |done].
      * destruct IH as (pre & s & post & Hsplit & Hpre & Hroom & -> & Herr).
        exists (g :: pre), s, post. rewrite Hsplit. simpl.
        repeat split; try done; [by constructor|].
        rewrite Herr. simpl. by rewrite <- app_assoc.
      * destruct IH as [Hall Herr]. split; [by constructor|].
        rewrite Herr. simpl. by rewrite <- app_assoc.
    + exists [], g, (g1 :: later). by rewrite app_nil_r.
Qed.

(** X3: waiting for room. The caller stays blocked exactly when neither
    the first state nor any state it wakes up in has room for the
    record; otherwise the record goes into the first state that has
    room, and one warning has been printed for each state before it. *)
Theorem add_log_entry_first_room wakeups g w msg size :
  ((∃ w', add_log_entry wakeups g w msg size = Blocked w')
   ↔ Forall (λ s, must_wait s size = true) (g :: wakeups))
  ∧ ∀ g' w',
      add_log_entry wakeups g w msg size = Returned g' w' →
      ∃ pre s post,
        g :: wakeups = pre ++ s :: post
        ∧ Forall (λ s, must_wait s size = true) pre
        ∧ must_wait s size = false
        ∧ g' = (append_record s msg size).1
        ∧ stderr w'
          = stderr w ++ replicate (length pre) (Fprintf space_warning).
Proof.
  pose proof (add_log_entry_decompose wakeups g w msg size) as Hdec.
  split; [split|].
  - intros [w' Hrun]. rewrite Hrun in Hdec. by destruct Hdec.
  - intros Hall. destruct (add_log_entry wakeups g w msg size)
      as [g' w'|w'|]; [|by eexists|done].
    destruct Hdec as (pre & s & post & Hsplit & _ & Hroom & _).
    rewrite Hsplit in Hall. apply Forall_app in Hall as [_ Hall].
    apply Forall_cons in Hall as [Hwait _]. congruence.
  - intros g' w' Hrun. by rewrite Hrun in Hdec.
Qed.

(** X4: a record that no buffer can take. When every state the caller
    sees has a buffer no larger than the record, the call never returns:
    it is still blocked after the last wake-up, with one warning printed
    for each time it went to sleep. *)
Theorem add_log_entry_never_fits wakeups g w msg size :
  0 ≤ size →
  Forall (λ s, 0 ≤ offset (buffers s (currbuffer s))
               ∧ buffersz s ≤ size
               ∧ offset (buffers s (currbuffer s)) + size < 2 ^ 64)
    (g :: wakeups) →
  ∃ w',
    add_log_entry wakeups g w msg size = Blocked w'
    ∧ stderr w'
      = stderr w ++ replicate (S (length wakeups)) (Fprintf space_warning)
    ∧ disk w' = disk w.
Proof.
  intros Hsize Hsmall.
  assert (Forall (λ s, must_wait s size = true) (g :: wakeups)) as Hall.
  { eapply Forall_impl; [exact Hsmall|]. intros s (Hoff & Hle & Hno).
    apply must_wait_iff; lia. }
  pose proof (add_log_entry_decompose wakeups g w msg size) as Hdec.
  pose proof (add_log_entry_warnings wakeups g w msg size) as Hwarn.
  destruct (add_log_entry wakeups g w msg size) as [g' w'|w'|]; [| |done].
  - destruct Hdec as (pre & s & post & Hsplit & _ & Hroom & _).
    rewrite Hsplit in Hall. apply Forall_app in Hall as [_ Hall].
    apply Forall_cons in Hall as [Hwait _]. congruence.
  - exists w'. destruct Hdec as [_ Herr]. by destruct Hwarn as (? & _).
Qed.

Lemma add_log_entry_never_fits_witness :
  ∃ w',
    add_log_entry [small_globals 0; small_globals 3] (small_globals 0)
      empty_world (bytes_of "a record of 32 bytes, too long!!") 32
    = Blocked w'
    ∧ stderr w' = replicate 3 (Fprintf space_warning).
Proof.
  destruct (add_log_entry_never_fits [small_globals 0; small_globals 3]
              (small_globals 0) empty_world
              (bytes_of "a record of 32 bytes, too long!!") 32)
    as (w' & Hrun & Herr & _).
  - lia.
  - repeat constructor; simpl; lia.
  - by exists w'.
Defined.

(** A [size_t] of [2^53] or more is converted to a [double] that is no
    smaller than [2^53]. *)
Lemma round53_large m e :
  2 ^ 53 ≤ m → 2 ^ 52 ≤ (round53 m e).1 ∧ e < (round53 m e).2.
Proof.
  intros Hm. unfold round53. destruct (Z.ltb_spec m (2 ^ 53)); [lia|].
  assert (53 ≤ Z.log2 m) as Hlog by (apply Z.log2_le_pow2; lia).
  pose proof (Z.log2_spec m ltac:(lia)) as [Hlow _].
  set (s := Z.log2 m - 52) in *.
  assert (2 ^ 52 ≤ Z.shiftr m s) as Hq.
  { rewrite Z.shiftr_div_pow2 by lia.
    apply Z.div_le_lower_bound; [apply Z.pow_pos_nonneg; lia|].
    replace (Z.log2 m) with (s + 52) in Hlow by lia.
    by rewrite Z.pow_add_r in Hlow by lia. }
  simpl. split; [|lia]. by destruct (_ || _); lia.
Qed.

(** For buffers of less than [2^51] bytes the test made in [double] is
    the test on integers: three quarters of [buffersz] are then a
    [double], and an offset too large to be one is beyond them. *)
Lemma over_high_water_exact g off :
  0 ≤ buffersz g < 2 ^ 51 → 0 ≤ off →
  over_high_water g off = (3 * buffersz g <? 4 * off).
Proof.
  intros Hb Hoff. unfold over_high_water, double_of_size, times_three_quarters.
  assert (∀ m e, m < 2 ^ 53 → round53 m e = (m, e)) as Hexact.
  { intros m e Hm. unfold round53.
    by destruct (Z.ltb_spec m (2 ^ 53)); [|lia]. }
  rewrite (Hexact (buffersz g)) by lia. cbn [fst snd].
  rewrite (Hexact (3 * buffersz g)) by lia.
  apply eq_true_iff_eq. rewrite (Z.ltb_lt (3 * _)).
  unfold double_lt. rewrite Z.ltb_lt. cbn [fst snd].
  destruct (Z.lt_ge_cases off (2 ^ 53)) as [Hsmall|Hlarge].
  - rewrite (Hexact off) by lia. cbn [fst snd].
    change (Z.min (0 - 2) 0) with (-2). change (0 - 2 - -2) with 0.
    change (0 - -2) with 2. lia.
  - destruct (round53_large off 0 Hlarge) as [Hq He].
    destruct (round53 off 0) as [q s]. cbn [fst snd] in *.
    rewrite Z.min_l by lia. change (0 - 2 - (0 - 2)) with 0.
    assert (2 ^ 3 ≤ 2 ^ (s - (0 - 2))) as Hpow
      by (apply Z.pow_le_mono_r; lia).
    assert (2 ^ 52 * 2 ^ 3 ≤ q * 2 ^ (s - (0 - 2))) as Hprod
      by (apply Z.mul_le_mono_nonneg; lia).
    lia.
Qed.

(** X5: the producer tells the flusher. The test that makes
    [add_log_entry] signal [cond] and the second half of the guard of
    the flusher's inner loop are the same comparison in [double], made
    on the same offset, so a flusher woken by the signal finds its
    guard true whatever the time. For buffers of less than [2^51]
    bytes, where that comparison is exact, the signal is given exactly
    when the new offset is above three quarters of [buffersz], and the
    guard holds exactly when the deadline has passed or the offset is
    above that mark. Beyond [2^53] bytes the rounding shows: with a
    buffer of [2^53 + 3] bytes an offset just above three quarters is
    not seen as such, and with one of [2^54 + 826] bytes an offset
    just below is. *)
Theorem append_signal_wakes_flusher g msg size tp k :
  let g' := (append_record g msg size).1 in
  let off := offset (buffers g' (currbuffer g')) in
  ((append_record g msg size).2 = true → should_drain tp g' k = true)
  ∧ (0 ≤ buffersz g < 2 ^ 51 →
     ((append_record g msg size).2 = true ↔ 3 * buffersz g < 4 * off)
     ∧ (should_drain tp g' k = true
        ↔ next k ≤ tp ∨ 3 * buffersz g < 4 * off))
  ∧ (buffersz g = 2 ^ 53 + 3 →
     over_high_water g (3 * 2 ^ 51 + 3) = false
     ∧ 3 * buffersz g < 4 * (3 * 2 ^ 51 + 3))
  ∧ (buffersz g = 2 ^ 54 + 826 →
     over_high_water g (3 * 2 ^ 52 + 619) = true
     ∧ 4 * (3 * 2 ^ 52 + 619) < 3 * buffersz g).
Proof.
  intros g' off.
  assert (off = wrap_size (offset (buffers g (currbuffer g)) + size)) as Hoff.
  { unfold off, g', append_record. simpl. by rewrite buffers_set_buffer_same. }
  assert (0 ≤ off) as Hpos.
  { rewrite Hoff. unfold wrap_size. apply Z.mod_pos_bound. lia. }
  assert ((append_record g msg size).2 = over_high_water g off) as Hsignal.
  { by rewrite Hoff. }
  assert (should_drain tp g' k = (next k <=? tp) || over_high_water g off)
    as Hguard by done.
  split; [|split; [|split]].
  - intros Hyes. rewrite Hguard, <- Hsignal, Hyes. apply orb_true_r.
  - intros Hsz. rewrite Hguard, Hsignal, over_high_water_exact by done.
    rewrite orb_true_iff, Z.leb_le, Z.ltb_lt. tauto.
  - intros Hsz. unfold over_high_water. rewrite Hsz.
    split; [by vm_compute|lia].
  - intros Hsz. unfold over_high_water. rewrite Hsz.
    split; [by vm_compute|lia].
Qed.

Lemma append_signal_wakes_flusher_witness :
  should_drain 0
    (append_record roomy_globals (bytes_of "12345678") 8).1
    (Worker None 0 100)
  = true.
Proof.
  destruct (append_signal_wakes_flusher roomy_globals (bytes_of "12345678")
              8 0 (Worker None 0 100)) as (Hwakes & _).
  apply Hwakes. reflexivity.
Defined.

(** ** The flusher's cycle *)

(** The buffer a drain hands back: same segment, and an offset of 0
    unless there was nothing to do. *)
Lemma flush_pending_io_buffer rs file w lb ret lb' w' rs' :
  flush_pending_io rs file w lb = Done (ret, lb', w', rs') →
  data lb' = data lb
  ∧ (offset lb' = 0 ∨ (lb' = lb ∧ offset lb ≤ 0))
  ∧ 0 ≤ ret.
Proof.
  unfold flush_pending_io. destruct (Z.ltb_spec 0 (offset lb)).
  - destruct file as [path|]; [|done].
    destruct (write_loop _ _ _ _ _) as [[w1 rs1]|]; [|done].
    intros [= <- <- <- <-]. simpl. repeat split; (lia || by left).
  - intros [= <- <- <- <-]. repeat split; (lia || by right).
Qed.

(** [open_logfile] changes no static but [next_id]. *)
Lemma open_logfile_globals ok g w fnm h g' w' :
  open_logfile ok g w fnm = Done (h, g', w') →
  ∃ n, g' = set_next_id g n.
Proof.
  unfold open_logfile.
  destruct (probe _ _ _ _ _) as [[fname id']| |]; [|done..].
  destruct ok; intros [= <- <- <-]; by eexists.
Qed.

(** The statics a cycle leaves: the index flipped, the drained buffer
    handed back by the drain, and possibly a new [next_id]. *)
Lemma drain_cycle_globals rs ok fnm tp g k w g' k' w' rs' :
  drain_cycle rs ok fnm tp g k w = Done (g', k', w', rs') →
  ∃ lb' n,
    g' = set_next_id
           (set_buffer (set_currbuffer g (flip (currbuffer g)))
              (currbuffer g) lb') n
    ∧ data lb' = data (buffers g (currbuffer g))
    ∧ (offset lb' = 0
       ∨ (lb' = buffers g (currbuffer g)
          ∧ offset (buffers g (currbuffer g)) ≤ 0))
    ∧ (currsize k' = 0 ∨ currsize k' ≤ cyclesz g)
    ∧ 0 ≤ currsize k'.
Proof.
  unfold drain_cycle. rewrite buffers_set_currbuffer.
  destruct (flush_pending_io rs (fp k) w (buffers g (currbuffer g)))
    as [[[[ret lb1] w1] rs1]| |] eqn:Hflush; simpl; [|done..].
  apply flush_pending_io_buffer in Hflush as (Hdata & Hoff & Hret).
  destruct (Z.ltb_spec (cyclesz g)
              (wrap_size (currsize k + ret))) as [Hpast|Hupto].
  - destruct (reopen_logfile _ _ _ _ _) as [[[fp1 g3] w2]| |] eqn:Hopen;
      simpl; [|done..].
    intros [= <- <- <- <-]. unfold reopen_logfile in Hopen.
    apply open_logfile_globals in Hopen as [n ->].
    exists lb1, n. simpl. repeat split; try done; (lia || by left).
  - intros [= <- <- <- <-]. exists lb1, (next_id g). simpl.
    repeat split; try done.
    + by right.
    + unfold wrap_size. apply Z.mod_pos_bound. lia.
Qed.

(** What a cycle does to the statics. *)
Lemma drain_cycle_statics rs ok fnm tp g k w g' k' w' rs' :
  drain_cycle rs ok fnm tp g k w = Done (g', k', w', rs') →
  currbuffer g' = flip (currbuffer g)
  ∧ (currbuffer g' = 0 ∨ currbuffer g' = 1)
  ∧ buffers g' (currbuffer g') = buffers g (flip (currbuffer g))
  ∧ data (buffers g' (currbuffer g)) = data (buffers g (currbuffer g))
  ∧ (0 ≤ offset (buffers g (currbuffer g)) →
     offset (buffers g' (currbuffer g)) = 0)
  ∧ buffersz g' = buffersz g ∧ cyclesz g' = cyclesz g ∧ run g' = run g
  ∧ current_log_level g' = current_log_level g
  ∧ output_level g' = output_level g.
Proof.
  intros Hrun.
  apply drain_cycle_globals in Hrun as (lb' & n & -> & Hdata & Hoff & _).
  assert (∀ g0 i, buffers (set_next_id g0 n) i = buffers g0 i) as Hnext
    by done.
  simpl. rewrite !Hnext, buffers_set_buffer_same, buffers_set_buffer_flip.
  repeat split; try done.
  - unfold flip. destruct (_ =? 0); [by right|by left].
  - intros Hpos. destruct Hoff as [Hzero|[-> Hneg]]; [done|lia].
Qed.

(** X6: the swap. A cycle flips the index of the active buffer between
    0 and 1; the buffer that becomes active, the one the producers write
    to while the drain goes on, comes out of the cycle as it went in;
    the drained buffer keeps its segment and is empty afterwards. Sizes,
    thresholds and [run] are not touched. *)
Theorem drain_cycle_swaps rs ok fnm tp g k w g' k' w' rs' :
  drain_cycle rs ok fnm tp g k w = Done (g', k', w', rs') →
  currbuffer g' = flip (currbuffer g)
  ∧ (currbuffer g' = 0 ∨ currbuffer g' = 1)
  ∧ buffers g' (currbuffer g') = buffers g (flip (currbuffer g))
  ∧ data (buffers g' (currbuffer g)) = data (buffers g (currbuffer g))
  ∧ (0 ≤ offset (buffers g (currbuffer g)) →
     offset (buffers g' (currbuffer g)) = 0)
  ∧ buffersz g' = buffersz g ∧ cyclesz g' = cyclesz g ∧ run g' = run g
  ∧ current_log_level g' = current_log_level g
  ∧ output_level g' = output_level g.
Proof.
  intros Hrun.
  apply drain_cycle_globals in Hrun as (lb' & n & -> & Hdata & Hoff & _).
  assert (∀ g0 i, buffers (set_next_id g0 n) i = buffers g0 i) as Hnext
    by done.
  simpl. rewrite !Hnext, buffers_set_buffer_same, buffers_set_buffer_flip.
  repeat split; try done.
  - unfold flip. destruct (_ =? 0); [by right|by left].
  - intros Hpos. destruct Hoff as [Hzero|[-> Hneg]]; [done|lia].
Qed.

Lemma drain_cycle_swaps_witness :
  ∃ g' k' w' rs',
    drain_cycle [5] true "memcached" 5 roomy_globals (worker_at 0)
      first_file_world = Done (g', k', w', rs')
    ∧ currbuffer g' = 1
    ∧ buffers g' 1 = buffers roomy_globals 1
    ∧ offset (buffers g' 0) = 0.
Proof.
  destruct (drain_cycle [5] true "memcached" 5 roomy_globals (worker_at 0)
              first_file_world) as [[[[g' k'] w'] rs']| |] eqn:Hrun;
    [|vm_compute in Hrun; discriminate..].
  destruct (drain_cycle_swaps _ _ _ _ _ _ _ _ _ _ _ Hrun)
    as (Hcur & _ & Hactive & _ & Hzero & _).
  exists g', k', w', rs'. split; [done|]. split; [done|].
  split; [by rewrite Hcur in Hactive|]. apply Hzero. by vm_compute.
Defined.

(** X7: the rotation bound. After every cycle the byte count is between
    0 and [cyclesz]: a count that has gone past [cyclesz] never survives
    the cycle that produced it. *)
Theorem drain_cycle_bounds_currsize rs ok fnm tp g k w g' k' w' rs' :
  0 ≤ cyclesz g →
  drain_cycle rs ok fnm tp g k w = Done (g', k', w', rs') →
  0 ≤ currsize k' ≤ cyclesz g'.
Proof.
  intros Hcycle Hrun.
  assert (cyclesz g' = cyclesz g) as ->.
  { by apply drain_cycle_statics in Hrun as (_ & _ & _ & _ & _ & _ & ? & _). }
  apply drain_cycle_globals in Hrun as (_ & _ & _ & _ & _ & Hsize & Hpos).
  lia.
Qed.

Lemma drain_cycle_bounds_currsize_witness :
  ∃ g' k' w' rs',
    drain_cycle [10] true "memcached" 5 (running_globals 10) (worker_at 91)
      first_file_world = Done (g', k', w', rs')
    ∧ 0 ≤ currsize k' ≤ cyclesz g'.
Proof.
  destruct (drain_cycle [10] true "memcached" 5 (running_globals 10)
              (worker_at 91) first_file_world)
    as [[[[g' k'] w'] rs']| |] eqn:Hrun;
    [|vm_compute in Hrun; discriminate..].
  exists g', k', w', rs'. split; [done|].
  apply (drain_cycle_bounds_currsize [10] true "memcached" 5
           (running_globals 10) (worker_at 91) first_file_world g' k' w' rs');
    [by vm_compute|exact Hrun].
Defined.

Lemma buffers_ok_set_currbuffer g :
  buffers_ok g → buffers_ok (set_currbuffer g (flip (currbuffer g))).
Proof.
  intros (Hsz & Hcur & H0 & H1). unfold buffers_ok. simpl.
  split; [done|]. split; [|done].
  unfold flip. destruct (_ =? 0); [by right|by left].
Qed.

(** X8: the producers keep the buffers well formed. If the buffers are
    well formed in every state the caller sees, they still are when
    [add_log_entry] returns: offsets stay inside the segments, with at
    least one byte to spare, and the segments keep their size. *)
Theorem add_log_entry_keeps_buffers_ok wakeups g w msg g' w' :
  Forall (λ s, buffers_ok s ∧ buffersz s + Z.of_nat (length msg) ≤ 2 ^ 64)
    (g :: wakeups) →
  add_log_entry wakeups g w msg (Z.of_nat (length msg)) = Returned g' w' →
  buffers_ok g'.
Proof.
  intros Hall Hrun.
  pose proof (add_log_entry_decompose wakeups g w msg
                (Z.of_nat (length msg))) as Hdec.
  rewrite Hrun in Hdec.
  destruct Hdec as (pre & s & post & Hsplit & _ & Hroom & -> & _).
  rewrite Hsplit in Hall. apply Forall_app in Hall as [_ Hall].
  apply Forall_cons in Hall as [[Hok Hno] _].
  pose proof (buffers_ok_active s Hok) as [Hoff _].
  by apply append_record_fits; [|lia|].
Qed.

Lemma add_log_entry_keeps_buffers_ok_witness :
  buffers_ok (append_record roomy_globals (bytes_of "hi") 2).1.
Proof.
  apply (add_log_entry_keeps_buffers_ok [] roomy_globals empty_world
           (bytes_of "hi") _ empty_world); [|reflexivity].
  repeat constructor; simpl; (lia || by left).
Defined.

(** X9: so does the flusher. A cycle that returns leaves the buffers
    well formed. *)
Theorem drain_cycle_keeps_buffers_ok rs ok fnm tp g k w g' k' w' rs' :
  buffers_ok g →
  drain_cycle rs ok fnm tp g k w = Done (g', k', w', rs') →
  buffers_ok g'.
Proof.
  intros Hok Hrun.
  pose proof (buffers_ok_active g Hok) as [Hoff Hlen].
  apply drain_cycle_globals in Hrun as (lb' & n & -> & Hdata & Hzero & _).
  assert (buffers_ok
            (set_buffer (set_currbuffer g (flip (currbuffer g)))
               (currbuffer g) lb')) as Hok'.
  { apply buffers_ok_set_buffer; [by apply buffers_ok_set_currbuffer|].
    simpl. split; [|by rewrite Hdata].
    destruct Hzero as [->|[-> _]]; lia. }
  exact Hok'.
Qed.

Lemma drain_cycle_keeps_buffers_ok_witness :
  ∃ g' k' w' rs',
    drain_cycle [5] true "memcached" 5 roomy_globals (worker_at 0)
      first_file_world = Done (g', k', w', rs')
    ∧ buffers_ok g'.
Proof.
  destruct (drain_cycle [5] true "memcached" 5 roomy_globals (worker_at 0)
              first_file_world) as [[[[g' k'] w'] rs']| |] eqn:Hrun;
    [|vm_compute in Hrun; discriminate..].
  exists g', k', w', rs'. split; [done|].
  apply (drain_cycle_keeps_buffers_ok [5] true "memcached" 5 roomy_globals
           (worker_at 0) first_file_world g' k' w' rs'); [|exact Hrun].
  repeat split; simpl; (lia || by left).
Defined.

(** X10: from the producer to the disk. A record appended to the active
    buffer is in the thread's file after the next cycle of the flusher:
    once the backend has accepted the bytes, the cycle has returned and
    the file holds what it held, followed by what the buffer held
    before the append, followed by the record; this is so whether or
    not the cycle then rotates to a new file. The drained buffer is
    empty, and the byte count is the old one plus the bytes drained
    when that is within [cyclesz], and 0 otherwise. *)
Theorem append_then_drain ws g w msg rs ok fnm tp k path :
  let len := Z.of_nat (length msg) in
  let active := buffers g (currbuffer g) in
  let total := wrap_size (currsize k + (offset active + len)) in
  buffers_ok g →
  offset active + len < 2 ^ 64 →
  must_wait g len = false →
  fp k = Some path →
  is_Some (disk w !! path) →
  piecemeal rs (offset active + len) = true →
  offset active + len ≤ progress rs →
  0 ≤ next_id g →
  next_id g + Z.of_nat (size (dom (disk w))) + 2 ≤ 2 ^ 31 →
  names_fit fnm (extension g) →
  ∃ g1 g2 k2 w2 rs2,
    add_log_entry ws g w msg len = Returned g1 w
    ∧ drain_cycle rs ok fnm tp g1 k w = Done (g2, k2, w2, rs2)
    ∧ file_contents w2 path = file_contents w path ++ contents active ++ msg
    ∧ offset (buffers g2 (currbuffer g)) = 0
    ∧ (total ≤ cyclesz g → fp k2 = Some path ∧ currsize k2 = total)
    ∧ (cyclesz g < total → currsize k2 = 0).
Proof.
  intros len active total. subst len active total.
  intros Hok Hno Hroom Hfp Hfile Hhon Hprog Hid Hnames Hfit.
  pose proof (buffers_ok_active g Hok) as [Hpos _].
  destruct (append_record_fits g msg Hok Hno Hroom)
    as (Hcur & Hsz & Hoff & Hcont & _ & Hok1).
  set (g1 := (append_record g msg (Z.of_nat (length msg))).1) in *.
  exists g1. rewrite add_log_entry_room by done. fold g1.
  assert (offset (buffers g1 (currbuffer g1))
          = offset (buffers g (currbuffer g)) + Z.of_nat (length msg))
    as Hoff1 by (by rewrite Hcur).
  destruct (drain_cycle_total rs ok fnm tp g1 k w path Hfp)
    as (w1 & rs1 & Happ & _ & Hrun); rewrite ?Hoff1; [lia|done|done|].
  rewrite Hcur, Hcont in Happ. rewrite Hcur, Hoff in Hrun.
  change (cyclesz g1) with (cyclesz g) in Hrun.
  pose proof Happ as (Hfile1 & _ & Hdom & _).
  rewrite <- Hfile1.
  set (g2 := set_buffer (set_currbuffer g1 (flip (currbuffer g)))
               (currbuffer g) _) in Hrun.
  assert (offset (buffers g2 (currbuffer g)) = 0) as Hzero
    by (unfold g2; by rewrite buffers_set_buffer_same).
  destruct (Z.ltb_spec (cyclesz g)
              (wrap_size (currsize k + (offset (buffers g (currbuffer g))
                                        + Z.of_nat (length msg)))))
    as [Hpast|Hupto].
  - pose proof (appended_to_size _ _ _ _ Happ) as Hsize.
    destruct (reopen_logfile_fresh ok g2 w1 fnm path)
      as (n & w2 & Hopen & _ & Hfree & _ & _ & Hdisk & _);
      [done|simpl; lia|done|].
    simpl in Hopen. rewrite Hopen in Hrun.
    eexists _, _, w2, rs1. split; [done|]. split; [exact Hrun|].
    split; [|split; [done|split; [lia|done]]].
    assert (logfile_name fnm n (extension g2) ≠ path) as Hne.
    { intros Heq. apply Hfree. rewrite Heq. apply Hdom.
      by apply elem_of_dom. }
    unfold file_contents. rewrite Hdisk.
    destruct ok; [|done]. by rewrite lookup_insert_ne.
  - eexists _, _, w1, rs1. split; [done|]. split; [exact Hrun|].
    split; [done|]. split; [done|]. split; [done|lia].
Qed.

Lemma append_then_drain_witness :
  ∃ g1 g2 k2 w2 rs2,
    add_log_entry [] roomy_globals first_file_world (bytes_of "hi") 2
    = Returned g1 first_file_world
    ∧ drain_cycle [7] true "memcached" 5 g1 (worker_at 0) first_file_world
      = Done (g2, k2, w2, rs2)
    ∧ file_contents w2 first_file = bytes_of "hellohi".
Proof.
  destruct (append_then_drain [] roomy_globals first_file_world
              (bytes_of "hi") [7] true "memcached" 5 (worker_at 0)
              first_file)
    as (g1 & g2 & k2 & w2 & rs2 & Happend & Hrun & Hfile & _).
  - repeat split; simpl; (lia || by left).
  - by vm_compute.
  - reflexivity.
  - reflexivity.
  - eexists. reflexivity.
  - reflexivity.
  - by vm_compute.
  - by vm_compute.
  - by vm_compute.
  - by vm_compute.
  - exists g1, g2, k2, w2, rs2. split; [exact Happend|].
    split; [exact Hrun|exact Hfile].
Defined.

(** ** The flusher's loops *)

Lemma drain_cycle_next rs ok fnm tp g k w g' k' w' rs' :
  drain_cycle rs ok fnm tp g k w = Done (g', k', w', rs') →
  next k' = wrap_uint (tp + 1).
Proof.
  unfold drain_cycle.
  destruct (flush_pending_io _ _ _ _) as [[[[ret lb1] w1] rs1]| |]; simpl;
    [|done..].
  destruct (_ <? _).
  - destruct (reopen_logfile _ _ _ _ _) as [[[fp1 g3] w2]| |]; simpl;
      [|done..].
    by intros [= <- <- <- <-].
  - by intros [= <- <- <- <-].
Qed.

(** X11: a timed wake-up drains once. When the flusher wakes up because
    its deadline has passed, it runs one cycle, which moves the deadline
    past the time it read; unless the producers have meanwhile filled
    the new active buffer beyond three quarters, the inner loop ends
    there, however many more cycles the environment would allow. *)
Theorem drain_while_once c later fnm tp g k w g' k' w' rs' :
  0 ≤ tp < 2 ^ 32 - 1 →
  next k ≤ tp →
  drain_cycle (answers c) (open_ok c) fnm tp g k w = Done (g', k', w', rs') →
  over_high_water (meanwhile c g')
    (offset (buffers (meanwhile c g') (currbuffer (meanwhile c g'))))
  = false →
  drain_while (c :: later) fnm tp g k w = Done (meanwhile c g', k', w').
Proof.
  intros Htp Hdue Hrun Hlow.
  pose proof (drain_cycle_next _ _ _ _ _ _ _ _ _ _ _ Hrun) as Hnext.
  rewrite wrap_uint_small in Hnext by lia.
  simpl. unfold should_drain at 1.
  destruct (Z.leb_spec (next k) tp); [|lia]. simpl. rewrite Hrun. simpl.
  assert (should_drain tp (meanwhile c g') k' = false) as Hstop.
  { unfold should_drain. rewrite Hlow, Hnext.
    by destruct (Z.leb_spec (tp + 1) tp); [lia|]. }
  destruct later; simpl; by rewrite Hstop.
Qed.

Lemma drain_while_once_witness :
  ∃ g' k' w',
    drain_while [quiet_cycle; quiet_cycle] "memcached" 5 roomy_globals
      (worker_at 0) first_file_world = Done (g', k', w')
    ∧ file_contents w' first_file = bytes_of "hello".
Proof.
  destruct (drain_cycle (answers quiet_cycle) (open_ok quiet_cycle)
              "memcached" 5 roomy_globals (worker_at 0) first_file_world)
    as [[[[g' k'] w'] rs']| |] eqn:Hrun;
    [|vm_compute in Hrun; discriminate..].
  exists (meanwhile quiet_cycle g'), k', w'. split.
  - apply (drain_while_once quiet_cycle [quiet_cycle] "memcached" 5
             roomy_globals (worker_at 0) first_file_world g' k' w' rs');
      [lia|by vm_compute|exact Hrun|].
    vm_compute in Hrun. by injection Hrun as <- <- <- <-.
  - vm_compute in Hrun. by injection Hrun as <- <- <- <-.
Defined.

(** The loop of the exit code: with the inactive buffer empty it drains
    the active buffer and stops, well within three turns. *)
Lemma final_drain_active rs g w path :
  let active := buffers g (currbuffer g) in
  0 ≤ offset active ≤ INT_MAX →
  offset (buffers g (flip (currbuffer g))) = 0 →
  honest rs (offset active) = true →
  offset active ≤ progress rs →
  ∃ g' wd rs',
    final_drain 3 rs (Some path) g w = Done (g', wd, rs')
    ∧ appended_to w wd path (contents active)
    ∧ offset (buffers0 g') = 0 ∧ offset (buffers1 g') = 0
    ∧ run g' = run g.
Proof.
  intros active Hoff Hother Hhon Hprog.
  assert (∀ g0 : globals,
            offset (buffers g0 (currbuffer g)) = 0 →
            offset (buffers g0 (flip (currbuffer g))) = 0 →
            offset (buffers0 g0) = 0 ∧ offset (buffers1 g0) = 0) as Hboth.
  { intros g0. unfold buffers, flip.
    by destruct (currbuffer g =? 0); simpl; intros ??. }
  simpl. fold active.
  destruct (Z.eqb_spec (offset active) 0) as [Hzero|Hdata]; simpl.
  - exists g, w, rs. split; [done|]. split.
    + unfold contents. rewrite Hzero. apply appended_to_refl.
    + split; [by apply Hboth|]. split; [by apply Hboth|done].
  - rewrite buffers_set_currbuffer. fold active.
    destruct (flush_pending_io_returns rs path w active Hoff Hhon Hprog)
      as [[[[ret lb1] w1] rs1] Hflush].
    rewrite Hflush. simpl.
    apply flush_pending_io_done in Hflush as (_ & -> & Happ & _); [|done..].
    assert (buffers
              (set_buffer (set_currbuffer g (flip (currbuffer g)))
                 (currbuffer g) (Logbuffer (data active) 0))
              (flip (currbuffer g))
            = buffers g (flip (currbuffer g))) as Hflip
      by (by rewrite buffers_set_buffer_flip).
    change (currbuffer
              (set_buffer (set_currbuffer g (flip (currbuffer g)))
                 (currbuffer g) (Logbuffer (data active) 0)))
      with (flip (currbuffer g)).
    rewrite Hflip, Hother. simpl.
    eexists _, w1, rs1. split; [done|]. split; [done|].
    split; [|split; [|done]];
      apply Hboth; by rewrite ?buffers_set_buffer_same, ?Hflip.
Qed.

(** X12: the final drain. At exit, with a file open and the inactive
    buffer empty, as every cycle leaves it, what is left in the active
    buffer is written to the file before the file is closed, both
    buffers are empty afterwards, and closing is the last thing done to
    the backend. *)
Theorem worker_exit_drains rs g k w path :
  let active := buffers g (currbuffer g) in
  fp k = Some path →
  0 ≤ offset active ≤ INT_MAX →
  offset (buffers g (flip (currbuffer g))) = 0 →
  honest rs (offset active) = true →
  offset active ≤ progress rs →
  ∃ g' wd rs',
    worker_exit rs g k w = Done (g', close_logfile (Some path) wd, rs')
    ∧ appended_to w wd path (contents active)
    ∧ offset (buffers0 g') = 0 ∧ offset (buffers1 g') = 0
    ∧ last (iolog (close_logfile (Some path) wd)) = Some (IoClose path).
Proof.
  intros active Hfp Hoff Hother Hhon Hprog.
  destruct (final_drain_active rs g w path Hoff Hother Hhon Hprog)
    as (g' & wd & rs' & Hdrain & Happ & H0 & H1 & _).
  exists g', wd, rs'. unfold worker_exit. rewrite Hfp, Hdrain. simpl.
  repeat split; try done; try apply Happ. apply last_snoc.
Qed.

Lemma worker_exit_drains_witness :
  ∃ g' wd rs',
    worker_exit stuttering_backend roomy_globals (worker_at 0)
      first_file_world
    = Done (g', close_logfile (Some first_file) wd, rs')
    ∧ file_contents wd first_file = bytes_of "hello"
    ∧ offset (buffers0 g') = 0 ∧ offset (buffers1 g') = 0.
Proof.
  destruct (worker_exit_drains stuttering_backend roomy_globals (worker_at 0)
              first_file_world first_file)
    as (g' & wd & rs' & Hrun & (Hfile & _) & H0 & H1 & _);
    try reflexivity; try (by vm_compute).
  by exists g', wd, rs'.
Defined.

(** X13: no way back from [NULL]. Once the thread holds no file, after a
    failed first open or a failed rotation, a cycle that returns has
    found the buffer empty, has opened nothing and leaves the thread
    without a file; a cycle that finds data in the buffer runs into the
    [NULL] handle. The thread never tries to open a file again. *)
Theorem drain_cycle_null_handle rs ok fnm tp g k w :
  fp k = None →
  0 ≤ offset (buffers g (currbuffer g)) →
  0 ≤ currsize k ≤ cyclesz g →
  cyclesz g < 2 ^ 64 →
  (0 < offset (buffers g (currbuffer g)) →
   drain_cycle rs ok fnm tp g k w = Fault)
  ∧ (offset (buffers g (currbuffer g)) = 0 →
     drain_cycle rs ok fnm tp g k w
     = Done (set_buffer (set_currbuffer g (flip (currbuffer g)))
               (currbuffer g) (buffers g (currbuffer g)),
             Worker None (currsize k) (wrap_uint (tp + 1)), w, rs)).
Proof.
  intros Hnull Hoff Hsize Hcycle. unfold drain_cycle, flush_pending_io.
  rewrite buffers_set_currbuffer, Hnull. split.
  - intros Hdata.
    by destruct (Z.ltb_spec 0 (offset (buffers g (currbuffer g)))); [|lia].
  - intros Hempty. rewrite Hempty. simpl.
    rewrite Z.add_0_r, wrap_size_small by lia.
    by destruct (Z.ltb_spec (cyclesz g) (currsize k)); [lia|].
Qed.

Lemma drain_cycle_null_handle_witness :
  drain_cycle [5] true "memcached" 5 roomy_globals (Worker None 0 0)
    empty_world = Fault.
Proof.
  apply (drain_cycle_null_handle [5] true "memcached" 5 roomy_globals
           (Worker None 0 0) empty_world); by vm_compute.
Defined.

(** X14: a failed first open. When the file cannot be opened at the
    start of the thread, the failure is printed and the thread starts
    all the same, without a file and with nothing created on disk. *)
Theorem worker_start_failed_open fnm now g w g' k w' :
  worker_start false fnm now g w = Done (g', k, w') →
  fp k = None ∧ currsize k = 0
  ∧ stderr w' = stderr w ++ [Fprintf open_failed]
  ∧ disk w' = disk w
  ∧ run g' = run g
  ∧ ∀ rs g2 w2, worker_exit rs g2 k w2 = Done (g2, w2, rs).
Proof.
  unfold worker_start.
  destruct (open_logfile false g w fnm) as [[[h g1] w1]| |] eqn:Hopen;
    simpl; [|done..].
  intros [= <- <- <-].
  apply open_logfile_failed in Hopen as (-> & Hrun & Hdisk & Herr).
  by repeat split.
Qed.

Lemma worker_start_failed_open_witness :
  ∃ g' k w',
    worker_start false "memcached" 100 (small_globals 0) used_world
    = Done (g', k, w')
    ∧ fp k = None ∧ disk w' = used_disk.
Proof.
  destruct (worker_start false "memcached" 100 (small_globals 0) used_world)
    as [[[g' k] w']| |] eqn:Hrun; [|vm_compute in Hrun; discriminate..].
  destruct (worker_start_failed_open _ _ _ _ _ _ _ Hrun)
    as (Hnull & _ & _ & Hdisk & _).
  exists g', k, w'. split; [reflexivity|]. split; [exact Hnull|exact Hdisk].
Defined.

(** ** Log files *)

(** The name the probing loop settles on is not one of the names it was
    given, whatever the counter does. *)
Lemma probe_free fuel : ∀ (names : gset string) fnm ext id name id',
  probe fuel names fnm ext id = Done (name, id') → name ∉ names.
Proof.
  induction fuel as [|fuel IH]; intros names fnm ext id name id'; [done|].
  simpl. destruct (FNAME_SIZE <=? _); [done|].
  destruct (decide (logfile_name fnm id ext ∈ names)) as [Hin|Hout].
  - rewrite bool_decide_eq_true_2 by done. apply IH.
  - rewrite bool_decide_eq_false_2 by done. by intros [= <- _].
Qed.

(** X15: opening never overwrites. Whatever is on disk and whatever the
    counter, [open_logfile] leaves every existing file with its
    contents: a successful open creates one file, empty, under a name
    that was not on disk, and a failed open changes nothing on disk. *)
Theorem open_logfile_keeps_files ok g w fnm h g' w' :
  open_logfile ok g w fnm = Done (h, g', w') →
  (∀ p, is_Some (disk w !! p) → disk w' !! p = disk w !! p)
  ∧ (∀ name, h = Some name →
       disk w !! name = None ∧ disk w' = <[name := []]> (disk w))
  ∧ (h = None → disk w' = disk w)
  ∧ (h = None ↔ ok = false).
Proof.
  unfold open_logfile.
  destruct (probe _ _ _ _ _) as [[fname id']| |] eqn:Hprobe; [|done..].
  apply probe_free in Hprobe. apply not_elem_of_dom in Hprobe.
  destruct ok; intros [= <- <- <-]; simpl.
  - split; [|split; [|split]]; try done.
    + intros p [c Hp]. rewrite lookup_insert_ne; [done|]. congruence.
    + by intros name [= <-].
  - split; [done|]. split; [done|]. by split.
Qed.

Lemma open_logfile_keeps_files_witness :
  ∃ h g' w',
    open_logfile true (small_globals 0) used_world "memcached"
    = Done (h, g', w')
    ∧ disk w' !! "memcached.0.txt"%string = Some (bytes_of "old").
Proof.
  destruct (open_logfile true (small_globals 0) used_world "memcached")
    as [[[h g'] w']| |] eqn:Hrun; [|vm_compute in Hrun; discriminate..].
  exists h, g', w'. split; [reflexivity|].
  destruct (open_logfile_keeps_files _ _ _ _ _ _ _ Hrun) as (Hkeep & _).
  rewrite Hkeep; [reflexivity|]. by eexists.
Defined.

(** X16: one name per sequence number. As long as the counter stays in
    the range [%d] prints without a sign, log files with different
    sequence numbers have different names. *)
Theorem logfile_names_distinct fnm ext i j :
  0 ≤ i < 2 ^ 31 → 0 ≤ j < 2 ^ 31 → i ≠ j →
  logfile_name fnm i ext ≠ logfile_name fnm j ext.
Proof. intros Hi Hj Hne Heq. by apply logfile_name_inj in Heq. Qed.

Lemma logfile_names_distinct_witness :
  logfile_name "memcached" 9 "txt" ≠ logfile_name "memcached" 10 "txt".
Proof. apply logfile_names_distinct; lia. Defined.

(** ** Rendering *)

Lemma ends_with_newline_nl s : ends_with_newline (s +:+ nl) = true.
Proof.
  induction s as [|c s IH]; [done|].
  simpl. destruct s; [done|]. exact IH.
Qed.

Lemma ends_with_newline_app p m :
  m ≠ EmptyString → ends_with_newline (p +:+ m) = ends_with_newline m.
Proof.
  intros Hm. induction p as [|c p IH]; [done|].
  simpl. destruct (p +:+ m) eqn:Hpm; [|exact IH].
  destruct p, m; cbv in Hpm; congruence.
Qed.

Lemma length_bytes_of s : Z.of_nat (length (bytes_of s)) = slen s.
Proof.
  unfold slen, bytes_of, list_byte_of_string. rewrite length_map.
  f_equal. induction s as [|c s IH]; simpl; congruence.
Qed.

Lemma string_app_empty s : s +:+ EmptyString = s.
Proof.
  induction s as [|c s IH]; [done|].
  change (String c (s +:+ EmptyString) = String c s). by rewrite IH.
Qed.

(** Timestamp and severity tag end in a colon and a blank, never in a
    newline. *)
Lemma record_prefix_open L g sev ts :
  ends_with_newline (record_prefix L g sev ts) = false.
Proof.
  assert (∀ x, ends_with_newline (" "%string +:+ x +:+ ": "%string) = false)
    as Htag.
  { intros x. rewrite ends_with_newline_app; [|by destruct x].
    by rewrite ends_with_newline_app. }
  unfold record_prefix, severity_tag.
  destruct (prettyprint g); (rewrite ends_with_newline_app; [apply Htag|done]).
Qed.

Section Rendering.

Variables (L : log_levels) (g : globals) (sev : Z) (ts msg : string).

(** X17: the shape of a record. A record that [logger_log] accepts is
    the timestamp, the severity tag and the message, followed by a
    newline exactly when the message does not end in one, the empty
    message included: it always ends with a newline, never with two
    added, and with its terminating NUL it fits the 2048 bytes of
    [buffer]. *)
Theorem render_record_shape buffer :
  render L g sev ts msg = Done (Some buffer) →
  slen buffer ≤ MAX_RECORD
  ∧ ends_with_newline buffer = true
  ∧ (ends_with_newline msg = true →
     buffer = record_prefix L g sev ts +:+ msg)
  ∧ (msg ≠ EmptyString → ends_with_newline msg = false →
     buffer = (record_prefix L g sev ts +:+ msg) +:+ nl)
  ∧ (msg = EmptyString → buffer = record_prefix L g sev ts +:+ nl).
Proof.
  unfold render.
  destruct (Z.ltb_spec MAX_RECORD (slen (record_prefix L g sev ts)));
    [done|].
  destruct (Z.ltb_spec (slen msg)
              (MAX_RECORD - slen (record_prefix L g sev ts))); [|done].
  intros [= <-]. unfold rendered_record.
  pose proof (slen_terminate_line (record_prefix L g sev ts +:+ msg)) as Hlen.
  rewrite slen_app in Hlen.
  split; [lia|]. unfold terminate_line. split; [|split; [|split]].
  - destruct (ends_with_newline (record_prefix L g sev ts +:+ msg)) eqn:Hnl;
      [done|apply ends_with_newline_nl].
  - intros Hmsg. rewrite ends_with_newline_app, Hmsg; [done|].
    by intros ->.
  - intros Hne Hmsg. by rewrite ends_with_newline_app, Hmsg.
  - intros ->. by rewrite string_app_empty, record_prefix_open.
Qed.

(** X18: aligned columns. With [prettyprint] on, the severity tag takes
    ten characters whatever the severity, known or not, so messages
    start in the same column after timestamps of the same length. *)
Theorem pretty_tag_width :
  prettyprint g = true →
  String.length (severity2string L sev) = 7%nat
  ∧ slen (record_prefix L g sev ts) = slen ts + 10.
Proof.
  intros Hpretty.
  assert (String.length (severity2string L sev) = 7%nat) as Hseven.
  { unfold severity2string. by repeat destruct (_ =? _). }
  split; [done|].
  unfold record_prefix, severity_tag. rewrite Hpretty, !slen_app.
  unfold slen at 3. rewrite Hseven. by vm_compute.
Qed.

End Rendering.

Lemma render_record_shape_witness :
  slen ("Tue Nov 14 22:13:20.000042 UTC 3: hello"%string +:+ nl) ≤ MAX_RECORD
  ∧ ends_with_newline
      ("Tue Nov 14 22:13:20.000042 UTC 3: hello"%string +:+ nl) = true.
Proof.
  destruct (render_record_shape memcached_levels (small_globals 0) 3
              (timestamp working_clock (Timeval 1700000000 42)) "hello"
              ("Tue Nov 14 22:13:20.000042 UTC 3: hello"%string +:+ nl)
              eq_refl) as (Hlen & Hnl & _).
  by split.
Defined.

Lemma pretty_tag_width_witness :
  String.length (severity2string memcached_levels 17) = 7%nat
  ∧ slen (record_prefix memcached_levels pretty_globals 17 "12:00")
    = slen "12:00" + 10.
Proof.
  exact (pretty_tag_width memcached_levels pretty_globals 17 "12:00"
           eq_refl).
Defined.

(** ** [logger_log], from call to buffer *)

Section Persisting.

Variables (L : log_levels) (c : time_env) (wakeups : list globals).
Variables (g : globals) (w : world) (severity : Z) (msg : string).

(** X19: a record that is persisted. For a severity at or above
    [current_log_level], with the clock read, the record rendered and
    room for it in the active buffer, the call returns at once; the
    bytes of the rendered record, newline included and NUL excluded, lie
    in the active buffer right behind what it held; the other buffer is
    untouched; [stderr] gets the record only if the severity is also at
    or above [output_level]. *)
Theorem logger_log_persists now buffer :
  let active := buffers g (currbuffer g) in
  current_log_level g ≤ severity →
  gettimeofday c = Some now →
  render L g severity (timestamp c now) msg = Done (Some buffer) →
  buffers_ok g →
  offset active + slen buffer < buffersz g →
  ∃ g' w',
    logger_log L c wakeups g w severity msg = Returned g' w'
    ∧ stderr w'
      = stderr w
          ++ (if output_level g <=? severity then [Fputs buffer; Fflush]
              else [])
    ∧ disk w' = disk w ∧ iolog w' = iolog w
    ∧ contents (buffers g' (currbuffer g))
      = contents active ++ bytes_of buffer
    ∧ buffers g' (flip (currbuffer g)) = buffers g (flip (currbuffer g))
    ∧ currbuffer g' = currbuffer g.
Proof.
  intros active Hcur Htime Hrender Hok Hroom.
  pose proof Hok as (Hsz & _).
  pose proof (buffers_ok_active g Hok) as [Hoff _]. fold active in Hoff.
  assert (0 ≤ slen buffer) as Hlen by (unfold slen; lia).
  assert (must_wait g (Z.of_nat (length (bytes_of buffer))) = false) as Hgo.
  { rewrite length_bytes_of. apply must_wait_false_iff; fold active; lia. }
  unfold logger_log. rewrite Htime, Hrender.
  destruct (Z.leb_spec (current_log_level g) severity) as [_|]; [|lia].
  simpl. rewrite <- length_bytes_of.
  destruct (append_record_fits g (bytes_of buffer) Hok) as
    (Hsame & _ & _ & Hcont & Hother & _); [|done|].
  { rewrite length_bytes_of. fold active. lia. }
  rewrite add_log_entry_room by done.
  destruct (output_level g <=? severity);
    (eexists _, _; split; [reflexivity|]); simpl; rewrite ?app_nil_r;
    by repeat split.
Qed.

(** X20: a logging call does no file I/O. However it ends, [logger_log]
    leaves the disk and the backend alone; all it does to the world is
    to add lines to [stderr]. *)
Theorem logger_log_no_file_io :
  match logger_log L c wakeups g w severity msg with
  | Returned _ w' | Blocked w' =>
      disk w' = disk w ∧ iolog w' = iolog w
      ∧ stderr w `prefix_of` stderr w'
  | Undefined => True
  end.
Proof.
  assert (∀ ops, disk (to_stderr w ops) = disk w
                 ∧ iolog (to_stderr w ops) = iolog w
                 ∧ stderr w `prefix_of` stderr (to_stderr w ops)) as Hgrow.
  { intros ops. repeat split. by exists ops. }
  assert (disk w = disk w ∧ iolog w = iolog w
          ∧ stderr w `prefix_of` stderr w) as Hsame by done.
  unfold logger_log.
  destruct (_ || _); [|exact Hsame].
  destruct (gettimeofday c) as [now|]; [|apply Hgrow].
  destruct (render _ _ _ _ _) as [[buffer|]| |];
    [|apply Hgrow|done|done].
  set (w1 := if output_level g <=? severity
             then to_stderr w [Fputs buffer; Fflush] else w).
  assert (disk w1 = disk w ∧ iolog w1 = iolog w
          ∧ stderr w `prefix_of` stderr w1) as (Hd & Hi & He).
  { unfold w1. destruct (output_level g <=? severity); [apply Hgrow|done]. }
  destruct (current_log_level g <=? severity); [|done].
  pose proof (add_log_entry_warnings wakeups g w1 (bytes_of buffer)
                (slen buffer)) as Hwarn.
  destruct (add_log_entry wakeups g w1 (bytes_of buffer) (slen buffer))
    as [g1 w2|w2|]; [| |done];
    destruct Hwarn as (-> & -> & ->); (split; [done|]); (split; [done|]);
    (etrans; [exact He|]); by eexists.
Qed.

End Persisting.

Lemma logger_log_persists_witness :
  ∃ g' w',
    logger_log memcached_levels working_clock [] wide_globals empty_world 3
      "hello" = Returned g' w'
    ∧ stderr w'
      = [Fputs ("Tue Nov 14 22:13:20.000042 UTC 3: hello"%string +:+ nl);
         Fflush]
    ∧ contents (buffers g' 0)
      = bytes_of ("Tue Nov 14 22:13:20.000042 UTC 3: hello"%string +:+ nl).
Proof.
  destruct (logger_log_persists memcached_levels working_clock []
              wide_globals empty_world 3 "hello" (Timeval 1700000000 42)
              ("Tue Nov 14 22:13:20.000042 UTC 3: hello"%string +:+ nl))
    as (g' & w' & Hrun & Herr & _ & _ & Hcont & _); try reflexivity.
  - repeat split; simpl; (lia || by left).
  - exists g', w'. split; [exact Hrun|]. split; [exact Herr|exact Hcont].
Defined.

(** ** The configuration *)

(** X21: level names in any case. The [loglevel] value is recognised
    without regard to the case of its letters, and exactly when,
    lowered, it is one of warning, info, debug or detail; every other
    value, the empty one included, is rejected. *)
Theorem parse_loglevel_ignores_case L loglevel :
  parse_loglevel L (lowercase loglevel) = parse_loglevel L loglevel
  ∧ (is_Some (parse_loglevel L loglevel)
     ↔ lowercase loglevel
       ∈ ["warning"%string; "info"%string; "debug"%string; "detail"%string]).
Proof.
  split.
  - unfold parse_loglevel. by rewrite !strcasecmp_eq_lower_r.
  - unfold parse_loglevel. rewrite !elem_of_cons, elem_of_nil.
    destruct (strcasecmp_eq "warning" loglevel) eqn:H1;
      [apply strcasecmp_eq_lowercase in H1; simpl in H1; split; eauto|].
    destruct (strcasecmp_eq "info" loglevel) eqn:H2;
      [apply strcasecmp_eq_lowercase in H2; simpl in H2; split; eauto|].
    destruct (strcasecmp_eq "debug" loglevel) eqn:H3;
      [apply strcasecmp_eq_lowercase in H3; simpl in H3; split; eauto|].
    destruct (strcasecmp_eq "detail" loglevel) eqn:H4;
      [apply strcasecmp_eq_lowercase in H4; simpl in H4; split; eauto 6|].
    split; [by intros [? [=]]|].
    intros [Heq|[Heq|[Heq|[Heq|[]]]]];
      symmetry in Heq;
      [apply (strcasecmp_eq_lowercase "warning") in Heq
      |apply (strcasecmp_eq_lowercase "info") in Heq
      |apply (strcasecmp_eq_lowercase "debug") in Heq
      |apply (strcasecmp_eq_lowercase "detail") in Heq]; congruence.
Qed.

(** ** Start-up, case by case *)

Section Outcome.

Variables (L : log_levels) (e : init_env) (api : server_api).
Variables (config : string) (items : config_items).
Variables (g : globals) (w : world).

Hypothesis has_api : get_server_api e = Some api.
Hypothesis parsed : parse_config api config = (true, items).

Let level_known : Prop :=
  match cfg_loglevel items with
  | Some loglevel => is_Some (parse_loglevel L loglevel)
  | None => True
  end.

Let resources : Prop :=
  is_Some (malloc e 0%nat (default (buffersz g) (cfg_buffersize items)))
  ∧ is_Some (malloc e 1%nat (default (buffersz g) (cfg_buffersize items)))
  ∧ (is_Some (cfg_filename items) ∨ strdup_ok e = true).

(** The configuration block, taken apart. *)
Lemma read_config_cases :
  (level_known
   ∧ ∃ g1, read_config L e api config g w = inl (g1, w, cfg_filename items)
           ∧ buffersz g1 = default (buffersz g) (cfg_buffersize items)
           ∧ buffers0 g1 = buffers0 g ∧ buffers1 g1 = buffers1 g
           ∧ currbuffer g1 = currbuffer g)
  ∨ (¬ level_known
     ∧ ∃ g1 w1, read_config L e api config g w = inr (g1, w1)).
Proof.
  unfold read_config, level_known. rewrite parsed. simpl.
  destruct (cfg_loglevel items) as [loglevel|].
  - destruct (parse_loglevel L loglevel) as [l|].
    + left. split; [by eexists|]. eexists. split; [done|].
      by destruct (_ && _).
    + right. split; [by intros [? [=]]|]. by eexists _, _.
  - left. split; [done|]. eexists. split; [done|]. by destruct (_ && _).
Qed.

(** The rest of start-up, taken apart. *)
Lemma start_logger_cases g1 w1 fname0 code g' w' t :
  start_logger e api g1 w1 fname0 = (code, g', w', t) →
  let ready :=
    is_Some (malloc e 0%nat (buffersz g1))
    ∧ is_Some (malloc e 1%nat (buffersz g1))
    ∧ (is_Some fname0 ∨ strdup_ok e = true) in
  (is_Some t ↔ ready ∧ pthread_create e = 0)
  ∧ (code = EXTENSION_SUCCESS
     ↔ ready ∧ 0 ≤ pthread_create e ∧ register_extension api = true)
  ∧ (code = EXTENSION_SUCCESS →
     ∃ d0 d1,
       malloc e 0%nat (buffersz g1) = Some d0
       ∧ malloc e 1%nat (buffersz g1) = Some d1
       ∧ g' = set_current_log_level
                (set_buffer
                   (set_buffer g1 0 (Logbuffer d0 (offset (buffers0 g1))))
                   1 (Logbuffer d1 (offset (buffers1 g1))))
                (get_level api)).
Proof.
  unfold start_logger. unfold is_Some.
  destruct (malloc e 0%nat (buffersz g1)) as [d0|];
    destruct (malloc e 1%nat (buffersz g1)) as [d1|];
    destruct fname0 as [f|]; try destruct (strdup_ok e);
    try destruct (Z.ltb_spec (pthread_create e) 0);
    try destruct (Z.eqb_spec (pthread_create e) 0);
    try destruct (register_extension api);
    intros [= <- <- <- <-]; simpl; split_and?;
    try (intros _; by eexists _, _);
    (split || idtac); intros; destruct_and?; destruct_or?;
    repeat match goal with H : ex _ |- _ => destruct H end;
    simplify_eq; split_and?; eauto; lia.
Qed.

(** X22: when start-up succeeds, and when there is a thread. For a
    configuration that parses, [memcached_extensions_initialize] returns
    [EXTENSION_SUCCESS] exactly when the log level, if given, is a known
    name, both buffers and the file name can be allocated,
    [pthread_create] does not return a negative number and the extension
    is registered. The error numbers [pthread_create] returns when it
    fails are positive, so they pass that test: start-up then goes on
    and can report success without a flusher thread. There is a thread
    exactly when the log level is known, the allocations succeed and
    [pthread_create] returns 0, whether or not the registration that
    follows succeeds. *)
Theorem initialize_succeeds_iff code g' w' t :
  memcached_extensions_initialize L e (Some config) g w = (code, g', w', t) →
  (code = EXTENSION_SUCCESS
   ↔ level_known ∧ resources ∧ 0 ≤ pthread_create e
     ∧ register_extension api = true)
  ∧ (is_Some t ↔ level_known ∧ resources ∧ pthread_create e = 0)
  ∧ (0 < pthread_create e → t = None)
  ∧ (is_Some t → register_extension api = false → code = EXTENSION_FATAL).
Proof.
  unfold memcached_extensions_initialize. rewrite has_api.
  destruct read_config_cases
    as [(Hknown & g1 & -> & Hsz & _)|(Hunknown & g1 & w1 & ->)].
  - intros Hstart. apply start_logger_cases in Hstart as (Ht & Hcode & _).
    unfold resources. rewrite <- Hsz. split_and!.
    + rewrite Hcode. tauto.
    + rewrite Ht. tauto.
    + intros Hfailed. destruct t as [fnm|]; [|done].
      assert (is_Some (Some fnm)) as Hsome by (by eexists).
      apply Ht in Hsome. lia.
    + intros _ Hreg. destruct code; [|done].
      assert (EXTENSION_SUCCESS = EXTENSION_SUCCESS) as Hok by done.
      apply Hcode in Hok as (_ & _ & Hreg'). congruence.
  - intros [= <- <- <- <-]. split_and!; try done.
    + split; [done|]. by intros (? & _).
    + split; [by intros [? [=]]|]. by intros (? & _).
Qed.

(** X23: what start-up hands to the threads. After a successful
    start-up from the initial statics, with a [malloc] that returns
    segments of the size asked for and a buffer size between 1 and
    [2^64 - 1], both buffers are empty segments of [buffersz] bytes and
    buffer 0 is the active one. *)
Theorem initialize_makes_buffers_ok g' w' t :
  g = initial_globals L →
  (∀ n d,
     malloc e n (default (buffersz g) (cfg_buffersize items)) = Some d →
     Z.of_nat (length d) = default (buffersz g) (cfg_buffersize items)) →
  0 < default (buffersz g) (cfg_buffersize items) < 2 ^ 64 →
  memcached_extensions_initialize L e (Some config) g w
  = (EXTENSION_SUCCESS, g', w', t) →
  buffers_ok g'
  ∧ currbuffer g' = 0
  ∧ offset (buffers0 g') = 0 ∧ offset (buffers1 g') = 0
  ∧ buffersz g' = default (buffersz g) (cfg_buffersize items).
Proof.
  intros Hinit Hmalloc Hsize. unfold memcached_extensions_initialize.
  rewrite has_api.
  destruct read_config_cases
    as [(_ & g1 & -> & Hsz & Hb0 & Hb1 & Hcur)|(_ & g1 & w1 & ->)]; [|done].
  intros Hstart.
  apply start_logger_cases in Hstart as (_ & _ & Hshape).
  destruct (Hshape eq_refl) as (d0 & d1 & Hd0 & Hd1 & ->).
  rewrite Hsz in Hd0, Hd1. apply Hmalloc in Hd0, Hd1.
  rewrite Hb0, Hb1. subst g. simpl in *.
  unfold buffers_ok, buffer_ok. simpl. rewrite Hcur, Hsz.
  repeat split; try done; try lia; by left.
Qed.

End Outcome.

Lemma initialize_succeeds_iff_witness :
  ∃ g' w',
    memcached_extensions_initialize memcached_levels eagain_env
      (Some debug_config) (initial_globals memcached_levels) empty_world
    = (EXTENSION_SUCCESS, g', w', None).
Proof.
  destruct (memcached_extensions_initialize memcached_levels eagain_env
              (Some debug_config) (initial_globals memcached_levels)
              empty_world) as [[[code g'] w'] t] eqn:Hrun.
  destruct (initialize_succeeds_iff memcached_levels eagain_env warning_server
              debug_config debug_items (initial_globals memcached_levels)
              empty_world eq_refl eq_refl code g' w' t Hrun)
    as ([_ Hcode] & _ & Hnone & _).
  exists g', w'. rewrite Hcode, Hnone; [reflexivity|by vm_compute|].
  repeat split; try (by eexists); try (by right). by vm_compute.
Defined.

Lemma initialize_makes_buffers_ok_witness :
  ∃ g' w' t,
    memcached_extensions_initialize memcached_levels generous_env
      (Some debug_config) (initial_globals memcached_levels) empty_world
    = (EXTENSION_SUCCESS, g', w', t)
    ∧ buffers_ok g'.
Proof.
  destruct (memcached_extensions_initialize memcached_levels generous_env
              (Some debug_config) (initial_globals memcached_levels)
              empty_world) as [[[code g'] w'] t] eqn:Hrun.
  assert (code = EXTENSION_SUCCESS) as ->
    by (vm_compute in Hrun; by injection Hrun as <- _ _ _).
  exists g', w', t. split; [reflexivity|].
  apply (initialize_makes_buffers_ok memcached_levels generous_env
           warning_server debug_config debug_items
           (initial_globals memcached_levels) empty_world eq_refl eq_refl
           g' w' t eq_refl); [|by vm_compute|exact Hrun].
  by intros n d [= <-].
Defined.

(** ** Shutdown *)

(** X24: shutting down. Once [exit_handler] has cleared [run], the
    flusher thread does no further turn of its loop, whatever it would
    have been given to do: it goes to its exit code, and when it holds a
    file, what the active buffer still contains is written to that file
    before it is closed. *)
Theorem shutdown_drains rounds rs fnm g k w path :
  let active := buffers g (currbuffer g) in
  fp k = Some path →
  0 ≤ offset active ≤ INT_MAX →
  offset (buffers g (flip (currbuffer g))) = 0 →
  honest rs (offset active) = true →
  offset active ≤ progress rs →
  ∃ g' wd,
    worker_loop rounds rs fnm (exit_handler g) k w
    = Done (g', close_logfile (Some path) wd)
    ∧ appended_to w wd path (contents active)
    ∧ offset (buffers0 g') = 0 ∧ offset (buffers1 g') = 0.
Proof.
  intros active Hfp Hoff Hother Hhon Hprog.
  destruct (final_drain_active rs (exit_handler g) w path)
    as (g' & wd & rs' & Hdrain & Happ & H0 & H1 & _); try done.
  exists g', wd.
  assert (worker_exit rs (exit_handler g) k w
          = Done (g', close_logfile (Some path) wd, rs')) as Hexit.
  { unfold worker_exit. by rewrite Hfp, Hdrain. }
  split; [|done].
  destruct rounds; simpl; by rewrite Hexit.
Qed.

Lemma shutdown_drains_witness :
  ∃ g' wd,
    worker_loop [Round 5 [quiet_cycle] 5 (λ g, g)] stuttering_backend
      "memcached" (exit_handler roomy_globals) (worker_at 0) first_file_world
    = Done (g', close_logfile (Some first_file) wd)
    ∧ file_contents wd first_file = bytes_of "hello".
Proof.
  destruct (shutdown_drains [Round 5 [quiet_cycle] 5 (λ g, g)]
              stuttering_backend "memcached" roomy_globals (worker_at 0)
              first_file_world first_file)
    as (g' & wd & Hrun & (Hfile & _) & _);
    try reflexivity; try (by vm_compute).
  exists g', wd. split; [exact Hrun|exact Hfile].
Defined.
